(** * codegen-apollo-suspense: the suspense repository and its generator

    A shallow embedding of [src/index.js]:
    - the run-time [createRepository] cache that the plugin emits
      (the [createRepo] template, lines 8-26),
    - the per-operation [toCacheKey] override (lines 117-120),
    - [Visitor.buildOperation] (lines 58-138) and
    - the plugin's [validate] hook (lines 180-188).

    JavaScript values are an inductive type; the cache object is a finite
    map of own properties read through [Object.prototype]; promises are
    identified by the index of the fetcher call that created them, and
    their settlement is an event supplied by the environment. *)

From Stdlib Require Import ZArith Lia.
From stdpp Require Import gmap strings list pretty.

Local Open Scope string_scope.
Local Open Scope list_scope.
Local Set Warnings "-register-all".

(** ** JavaScript values *)

Module JS.

(** The values that flow through the repository: arguments of [read],
    results of the fetcher, the configuration of the plugin.  Numbers are
    the integer-valued ones; an object lists its own enumerable
    properties in the order [Object.values] enumerates them; [VFun] is a
    built-in function, named. *)
Inductive Val : Type :=
| VUndefined
| VNull
| VBool (b : bool)
| VNum (n : Z)
| VStr (s : string)
| VObj (props : list (string * Val))
| VArr (elems : list Val)
| VFun (name : string).

(** [v === undefined] *)
Definition is_undefined (v : Val) : bool :=
  match v with VUndefined => true | _ => false end.

(** [v === undefined || v === null] *)
Definition is_nullish (v : Val) : bool :=
  match v with VUndefined | VNull => true | _ => false end.

(** ToBoolean: what [v ? a : b], [!v], [v || w] and [if (v)] test. *)
Definition truthy (v : Val) : bool :=
  match v with
  | VUndefined | VNull => false
  | VBool b => b
  | VNum n => negb (n =? 0)%Z
  | VStr s => negb (String.eqb s "")
  | VObj _ | VArr _ | VFun _ => true
  end.

(** [a || b] *)
Definition or_else (a b : Val) : Val := if truthy a then a else b.

(** ToString.  An array prints its elements separated by commas, with
    [undefined] and [null] printed as nothing; a number prints in
    decimal, as JavaScript does below 1e21. *)
Fixpoint ToString (v : Val) : string :=
  match v with
  | VUndefined => "undefined"
  | VNull => "null"
  | VBool true => "true"
  | VBool false => "false"
  | VNum n => pretty n
  | VStr s => s
  | VObj _ => "[object Object]"
  | VArr elems =>
      String.concat ","
        (map (fun x => match x with
                       | VUndefined | VNull => ""
                       | _ => ToString x
                       end) elems)
  | VFun name => "function " +:+ name +:+ "() { [native code] }"
  end.

(** The text [Array.prototype.join] uses for one element. *)
Definition join_item (v : Val) : string :=
  if is_nullish v then "" else ToString v.

(** [elems.join(sep)] *)
Definition join (sep : string) (elems : list Val) : string :=
  String.concat sep (map join_item elems).

(** [Object.values(v)]: [None] is the TypeError raised for [undefined]
    and [null].  A string yields its characters (those of an ASCII
    string, one per byte), other primitives and functions have no
    enumerable own property. *)
Definition Object_values (v : Val) : option (list Val) :=
  match v with
  | VUndefined | VNull => None
  | VObj props => Some (map snd props)
  | VArr elems => Some elems
  | VStr s => Some (map (fun c => VStr (String c "")) (String.list_ascii_of_string s))
  | VBool _ | VNum _ | VFun _ => Some []
  end.

(** The i-th actual parameter of a call; a missing one is [undefined]. *)
Definition param (i : nat) (actuals : list Val) : Val :=
  nth i actuals VUndefined.

End JS.

(** ** The repository emitted by the plugin ([createRepo], lines 8-26) *)

Module Repository.
Import JS.

(** A cache-key function is called with a list of actual parameters and
    returns a string, or raises ([None]). *)
Definition KeyFn : Type := list Val -> option string.

(** [interface RepositoryOptions { toCacheKey?: ... }] *)
Record RepositoryOptions : Type := { toCacheKey : option KeyFn }.

(** What one call of [read] does: [return cache[cacheKey]], [throw] of the
    promise made by the fetcher call numbered [promise], or the exception
    of the key function. *)
Inductive Outcome : Type :=
| Returned (v : Val)
| Suspended (promise : nat)
| Raised.

(** The state behind one [createRepository] call: the own properties of
    [cache], the promises still pending with the [cacheKey] their [then]
    callback closes over, and the fetcher calls made so far, oldest
    first.  A promise is named by the index of its fetcher call. *)
Record Repo : Type := {
  cache : gmap string Val;
  inflight : gmap nat string;
  calls : list (list Val)
}.

(** What the environment does with a repository: a [read] call, or the
    settlement of a pending fetcher promise. *)
Inductive Event : Type :=
| Read (args : list Val)
| Resolve (promise : nat) (value : Val)
| Reject (promise : nat) (reason : Val).

(** The members every object literal inherits from [Object.prototype]. *)
Definition Object_prototype_names : list string :=
  [ "constructor"; "__defineGetter__"; "__defineSetter__"; "hasOwnProperty";
    "__lookupGetter__"; "__lookupSetter__"; "isPrototypeOf";
    "propertyIsEnumerable"; "toString"; "valueOf"; "__proto__";
    "toLocaleString" ].

Definition inherited (k : string) : bool :=
  bool_decide (k ∈ Object_prototype_names).

(** [cache[k]] for [let cache = {}]: the own property, else the inherited
    member, else [undefined]. *)
Definition cache_get (c : gmap string Val) (k : string) : Val :=
  match c !! k with
  | Some v => v
  | None =>
      if inherited k
      then (if String.eqb k "__proto__" then VObj [] else VFun k)
      else VUndefined
  end.

(** [let cache = {}; return { read }] *)
Definition createRepository : Repo :=
  {| cache := ∅; inflight := ∅; calls := [] |}.

Section Read.

(** [hash] of the object-hash package, and the [options] argument of
    [createRepository] ([None] when it is left out). *)
Variable hash : Val -> string.
Variable options : option RepositoryOptions.

(** [options?.toCacheKey ?? hash] *)
Definition generateCacheKey : KeyFn :=
  match options with
  | Some {| toCacheKey := Some f |} => f
  | _ => fun actuals => Some (hash (param 0 actuals))
  end.

(** [args ? generateCacheKey(args) : 'default'], [args] being the rest
    parameter of [read], an array. *)
Definition cacheKey (args : list Val) : option string :=
  if truthy (VArr args) then generateCacheKey [VArr args] else Some "default".

(** [read(...args)], lines 18-23.  A miss calls the fetcher, which hands
    back a new pending promise, and throws that promise chained with the
    callback that will store the value.  The fetcher is taken at its
    type, [(...args) => Promise<TReturn>]: one that throws before it
    returns, or returns no promise, is not modelled. *)
Definition read (r : Repo) (args : list Val) : Repo * Outcome :=
  match cacheKey args with
  | None => (r, Raised)
  | Some k =>
      if is_undefined (cache_get (cache r) k)
      then
        let p := length (calls r) in
        ({| cache := cache r;
            inflight := <[p := k]> (inflight r);
            calls := (calls r ++ [args])%list |},
         Suspended p)
      else (r, Returned (cache_get (cache r) k))
  end.

(** The fetcher promise [p] is fulfilled with [value]: the callback
    [value => (cache[cacheKey] = value)] runs.  [None] when [p] is not
    pending. *)
Definition resolve (r : Repo) (p : nat) (value : Val) : option Repo :=
  k ← inflight r !! p;
  Some {| cache := <[k := value]> (cache r);
          inflight := delete p (inflight r);
          calls := calls r |}.

(** The fetcher promise [p] is rejected: no callback of the repository
    runs. *)
Definition reject (r : Repo) (p : nat) : option Repo :=
  _ ← inflight r !! p;
  Some {| cache := cache r;
          inflight := delete p (inflight r);
          calls := calls r |}.

(** One event; the outcomes are those of [read] calls, so a settlement
    has none. *)
Definition step (r : Repo) (ev : Event) : option (Repo * list Outcome) :=
  match ev with
  | Read args => let '(r1, o) := read r args in Some (r1, [o])
  | Resolve p v => r1 ← resolve r p v; Some (r1, [])
  | Reject p _ => r1 ← reject r p; Some (r1, [])
  end.

(** A sequence of events, with the outcomes of its [Read]s in order.
    [None] when the sequence settles a promise that is not pending. *)
Fixpoint exec (r : Repo) (evs : list Event) : option (Repo * list Outcome) :=
  match evs with
  | [] => Some (r, [])
  | ev :: evs' =>
      '(r1, os1) ← step r ev;
      '(r2, os2) ← exec r1 evs';
      Some (r2, (os1 ++ os2)%list)
  end.

Definition run (r : Repo) (evs : list Event) : option Repo :=
  fst <$> exec r evs.

(** [Q] holds of every event of the run from [r], in the state in which
    the event happens. *)
Fixpoint along (Q : Repo → Event → Prop) (r : Repo) (evs : list Event) : Prop :=
  match evs with
  | [] => True
  | ev :: evs' => Q r ev ∧ ∀ x, step r ev = Some x → along Q x.1 evs'
  end.

End Read.

(** The override every generated repository is created with, lines
    117-120: [(_, variables) => Object.values(variables || {}).join('-')]. *)
Definition toCacheKey_generated : KeyFn := fun actuals =>
  let variables := param 1 actuals in
  values ← Object_values (or_else variables (VObj []));
  Some (join "-" values).

Definition generated_options : option RepositoryOptions :=
  Some {| toCacheKey := Some toCacheKey_generated |}.

End Repository.

(** ** Text helpers of the generator *)

Module Text.

Definition nl : string := String (Ascii.ascii_of_nat 10) "".
Definition tab : string := String (Ascii.ascii_of_nat 9) "".

(** [s.endsWith(suffix)] *)
Definition ends_with (suffix s : string) : bool :=
  (String.length suffix <=? String.length s)%nat
  && String.eqb
       (String.substring (String.length s - String.length suffix)
          (String.length suffix) s)
       suffix.

(** [s.replace(/suffix$/, '')] for a literal suffix. *)
Definition strip_suffix (suffix s : string) : string :=
  if ends_with suffix s
  then String.substring 0 (String.length s - String.length suffix) s
  else s.

(** [c.toLowerCase()] on the ASCII letters, which are all a GraphQL name
    can start with. *)
Definition lower_ascii (c : Ascii.ascii) : Ascii.ascii :=
  let n := Ascii.nat_of_ascii c in
  if ((65 <=? n) && (n <=? 90))%nat then Ascii.ascii_of_nat (n + 32) else c.

(** [s.padStart(target, fill)] *)
Definition padStart (s : string) (target : nat) (fill : string) : string :=
  let missing := target - String.length s in
  if String.eqb fill "" then s
  else String.substring 0 missing (String.concat "" (repeat fill missing)) +:+ s.

(** How often [pat] occurs in [s], overlapping occurrences included. *)
Fixpoint occurrences (pat s : string) : nat :=
  (if String.prefix pat s then 1 else 0) +
  match s with
  | EmptyString => 0
  | String _ rest => occurrences pat rest
  end.

End Text.

(** ** The generator: [Visitor.buildOperation], lines 58-138 *)

Module Codegen.
Import Text.

(** [term => `${term.charAt(0).toLowerCase()}${term.slice(1)}`
      .replace(/Query$/, '').replace(/Mutation$/, '')], line 6. *)
Definition lowerCaseFirstLetter (term : string) : string :=
  let lowered :=
    match term with
    | EmptyString => EmptyString
    | String c rest => String (lower_ascii c) rest
    end in
  strip_suffix "Mutation" (strip_suffix "Query" lowered).

(** The part of an operation definition node [buildOperation] looks at:
    [node.name] (absent for an anonymous operation) and the names of
    [node.variableDefinitions]. *)
Record OperationNode : Type := {
  name : option string;
  variableDefinitions : list string
}.

(** The options object handed to [convertName]. *)
Record ConvertOptions : Type := {
  suffix : string;
  useTypesPrefix : option bool;
  useTypesSuffix : option bool
}.

(** An entry pushed on [__queryNames] or [__mutationNames]. *)
Record Binding : Type := {
  binding_name : string;
  action : string;
  type : string
}.

(** The two lists the visitor's constructor initialises, lines 35-36. *)
Record Visitor : Type := {
  __mutationNames : list Binding;
  __queryNames : list Binding
}.

(** The six arguments of one [buildOperation] call. *)
Record Operation : Type := {
  node : OperationNode;
  documentVariableName : string;
  operationType : string;
  operationResultType : string;
  operationVariablesType : string;
  hasRequiredVars : bool
}.

Section Naming.

(** [pascalCase] of change-case-all and [convertName] of the base
    visitor. *)
Variable pascalCase : string -> string.
Variable convertName : string -> ConvertOptions -> string.

(** [variablesStringGenerator], lines 84-87. *)
Definition variablesStringGenerator (nd : OperationNode) (spaces : nat) : string :=
  fold_left
    (fun collection item =>
       collection +:+ nl +:+ "* " +:+ padStart "" spaces tab +:+ item
       +:+ ": // value for " +:+ item)
    (variableDefinitions nd) "".

Definition ticks : string := "```".

(** The documentation comment, lines 91-106. *)
Definition comment (nd : OperationNode) (baseName documentKeyword clientAction : string) : string :=
  "/** " +:+ nl +:+
  "* use" +:+ baseName +:+ nl +:+
  "*" +:+ nl +:+
  "* Use this hook to execure a " +:+ documentKeyword +:+ " for use in React suspense." +:+ nl +:+
  "* Please use an error boundary to catch any errors." +:+ nl +:+
  "*" +:+ nl +:+
  "* @param options options that will be passed into the query, supported options are listed on: https://www.apollographql.com/docs/react/api/core/#ApolloClient." +:+ clientAction +:+ nl +:+
  "* " +:+ nl +:+
  "* @example" +:+ nl +:+
  "* " +:+ ticks +:+ "typescript" +:+ nl +:+
  "* const data = use" +:+ baseName +:+ "(" +:+
  (if (length (variableDefinitions nd) =? 0)%nat then ""
   else "{" +:+ nl +:+
        "*       variables: {" +:+ variablesStringGenerator nd 3 +:+ nl +:+
        "*       }" +:+ nl +:+
        "*   }") +:+ ");" +:+ nl +:+
  "* " +:+ ticks +:+ nl +:+
  "*/".

(** The repository and the accessor, lines 108-127. *)
Definition body (nd : OperationNode) (baseName optionsType documentKeyword clientAction
    documentVariableName operationResultType operationVariablesType : string) : string :=
  nl +:+
  "        const " +:+ lowerCaseFirstLetter baseName +:+ " = createRepository<" +:+ operationResultType +:+ ", ApolloSuspenseArgs<" +:+ optionsType +:+ ">>(async (client: ApolloClient<object>, options: " +:+ optionsType +:+ ") => {" +:+ nl +:+
  "            const { data } = await client." +:+ clientAction +:+ "<" +:+ operationResultType +:+ ", " +:+ operationVariablesType +:+ ">({" +:+ nl +:+
  "                " +:+ documentKeyword +:+ ": " +:+ documentVariableName +:+ "," +:+ nl +:+
  "                ...options," +:+ nl +:+
  "            });" +:+ nl +:+
  "        " +:+ nl +:+
  "            return data;" +:+ nl +:+
  "        }, {" +:+ nl +:+
  "            toCacheKey: (_, variables) => {" +:+ nl +:+
  "                const { values } = Object;" +:+ nl +:+
  "                return values(variables || {}).join('-');" +:+ nl +:+
  "            }" +:+ nl +:+
  "        })" +:+ nl +:+
  nl +:+
  "        " +:+ comment nd baseName documentKeyword clientAction +:+ nl +:+
  "        export const use" +:+ baseName +:+ " = (options: " +:+ optionsType +:+ ") => {" +:+ nl +:+
  "            const client = useApolloClient();" +:+ nl +:+
  "            return " +:+ lowerCaseFirstLetter baseName +:+ ".read(client, options);" +:+ nl +:+
  "        }".

(** [buildOperation], lines 58-138: the emitted text and the visitor
    after the call. *)
Definition buildOperation (this : Visitor) (op : Operation) : string * Visitor :=
  let nodeName := match name (node op) with Some value => value | None => "" end in
  let suffix := pascalCase (operationType op) in
  let operationName :=
    convertName nodeName
      {| suffix := suffix; useTypesPrefix := Some false; useTypesSuffix := Some false |} in
  let isMutation := String.eqb (operationType op) "Mutation" in
  let isQuery := String.eqb (operationType op) "Query" in
  if isMutation && negb isQuery then ("", this)
  else
    let optionsTypeString := if isMutation then "MutationOptions" else "QueryOptions" in
    let clientAction := if isMutation then "mutate" else "query" in
    let documentKeyword := if isMutation then "mutation" else "query" in
    let baseName :=
      convertName nodeName
        {| suffix := "Suspense" +:+ (if isMutation then "Mutation" else "Query");
           useTypesPrefix := None; useTypesSuffix := None |} in
    let optionsType :=
      "Omit<" +:+ optionsTypeString +:+ "<" +:+ operationVariablesType op +:+ ", "
      +:+ operationResultType op +:+ ">, '" +:+ documentKeyword +:+ "'>" in
    let entry :=
      {| binding_name := operationName; action := clientAction; type := optionsType |} in
    (body (node op) baseName optionsType documentKeyword clientAction
       (documentVariableName op) (operationResultType op) (operationVariablesType op),
     if isMutation
     then {| __mutationNames := __mutationNames this ++ [entry];
             __queryNames := __queryNames this |}
     else {| __mutationNames := __mutationNames this;
             __queryNames := __queryNames this ++ [entry] |}).

(** The traversal is the base visitor's, not this plugin's: it calls
    [buildOperation] once per operation definition, in document order,
    with the operation keyword in Pascal case as [operationType].  The
    texts returned are collected in that order. *)
Fixpoint visitOperations (this : Visitor) (ops : list Operation) : list string * Visitor :=
  match ops with
  | [] => ([], this)
  | op :: rest =>
      let '(text, this1) := buildOperation this op in
      let '(texts, this2) := visitOperations this1 rest in
      (text :: texts, this2)
  end.

End Naming.

(** [new Visitor(...)], lines 29-37. *)
Definition newVisitor : Visitor := {| __mutationNames := []; __queryNames := [] |}.

End Codegen.

(** ** The [validate] hook, lines 180-188 *)

Module Plugin.
Import JS.

Definition CHAR_FORWARD_SLASH : Ascii.ascii := Ascii.ascii_of_nat 47.
Definition CHAR_DOT : Ascii.ascii := Ascii.ascii_of_nat 46.

(** The registers of the scan in Node's [path.extname] (POSIX flavour);
    [None] stands for its [-1]. *)
Record Scan : Type := {
  startDot : option nat;
  startPart : nat;
  end_ : option nat;
  matchedSlash : bool;
  preDotState : Z
}.

(** The loop of [extname], from the last character to the first; each
    character comes with its index. *)
Fixpoint extname_scan (chars : list (nat * Ascii.ascii)) (st : Scan) : Scan :=
  match chars with
  | [] => st
  | (i, c) :: rest =>
      if Ascii.eqb c CHAR_FORWARD_SLASH then
        if negb (matchedSlash st)
        then {| startDot := startDot st; startPart := i + 1; end_ := end_ st;
                matchedSlash := matchedSlash st; preDotState := preDotState st |}
        else extname_scan rest st
      else
        let st1 :=
          match end_ st with
          | None => {| startDot := startDot st; startPart := startPart st;
                       end_ := Some (i + 1); matchedSlash := false;
                       preDotState := preDotState st |}
          | Some _ => st
          end in
        let st2 :=
          if Ascii.eqb c CHAR_DOT then
            match startDot st1 with
            | None => {| startDot := Some i; startPart := startPart st1;
                         end_ := end_ st1; matchedSlash := matchedSlash st1;
                         preDotState := preDotState st1 |}
            | Some _ => {| startDot := startDot st1; startPart := startPart st1;
                           end_ := end_ st1; matchedSlash := matchedSlash st1;
                           preDotState := 1 |}
            end
          else
            match startDot st1 with
            | None => st1
            | Some _ => {| startDot := startDot st1; startPart := startPart st1;
                           end_ := end_ st1; matchedSlash := matchedSlash st1;
                           preDotState := -1 |}
            end in
        extname_scan rest st2
  end.

(** [extname(path)] of Node's [path] module, which the plugin imports
    (line 4); this is its POSIX algorithm.  The result is the text from
    the last dot of the last path component, or the empty string when
    that component has no dot, starts with its only dot, or is [..]. *)
Definition extname (path : string) : string :=
  let chars := String.list_ascii_of_string path in
  let st :=
    extname_scan (rev (zip (seq 0 (length chars)) chars))
      {| startDot := None; startPart := 0; end_ := None;
         matchedSlash := true; preDotState := 0 |} in
  match startDot st, end_ st with
  | Some d, Some e =>
      if (preDotState st =? 0)%Z
         || ((preDotState st =? 1)%Z && (d =? e - 1)%nat && (d =? startPart st + 1)%nat)
      then ""
      else String.substring d (e - d) path
  | _, _ => ""
  end.

(** The one field of the plugin configuration [validate] reads. *)
Record Config : Type := { disableChecks : Val }.

(** How the promise returned by an [async] function settles. *)
Inductive Settlement : Type :=
| Fulfilled
| Rejected (message : string).

Definition validFileExtensions : list string := [".ts"; ".tsx"].

(** [validate(schema, documents, config, outputFile)] *)
Definition validate (config : Config) (outputFile : string) : Settlement :=
  if truthy (disableChecks config) then Fulfilled
  else if negb (existsb (String.eqb (extname outputFile)) validFileExtensions)
       then Rejected "The output file must be a typescript file ending with either .ts or .tsx"
       else Fulfilled.

End Plugin.

(** ** Vocabulary of the properties, and the inputs of the examples *)

Module Scenario.
Import JS Repository Codegen.
Import Plugin.

(** If the event fulfils a fetch pending for [k], it does so with a value
    other than [undefined]. *)
Definition stores_defined (k : string) (r : Repo) (ev : Event) : Prop :=
  match ev with
  | Resolve p v => inflight r !! p = Some k → is_undefined v = false
  | _ => True
  end.

(** If the event fulfils a fetch pending for [k], it does so with
    [undefined]. *)
Definition stores_undefined (k : string) (r : Repo) (ev : Event) : Prop :=
  match ev with
  | Resolve p v => inflight r !! p = Some k → v = VUndefined
  | _ => True
  end.

(** No condition on the events. *)
Definition any_event (r : Repo) (ev : Event) : Prop := True.

(** The argument lists of the [read] calls among the events, in order. *)
Definition reads_of (evs : list Event) : list (list Val) :=
  omap (λ ev, match ev with Read args => Some args | _ => None end) evs.

(** No pending promise will store under [k]. *)
Definition no_fetch_in_flight (k : string) (r : Repo) : Prop :=
  ∀ p, inflight r !! p ≠ Some k.

(** The transport client handed to the accessor by [useApolloClient()]. *)
Definition client : Val := VObj [("version", VStr "3.0.0")].

(** The options bags of the README's example, and of a second city. *)
Definition melbourne : Val :=
  VObj [("variables", VObj [("city", VStr "melbourne"); ("country", VStr "au")])].

Definition sydney : Val :=
  VObj [("variables", VObj [("city", VStr "sydney"); ("country", VStr "au")])].

(** The README's query, as the base visitor hands it to
    [buildOperation], and a mutation next to it. *)
Definition GetWeather : Operation :=
  {| node := {| name := Some "GetWeather"; variableDefinitions := ["city"; "country"] |};
     documentVariableName := "GetWeatherDocument";
     operationType := "Query";
     operationResultType := "GetWeatherQuery";
     operationVariablesType := "GetWeatherQueryVariables";
     hasRequiredVars := true |}.

Definition UpdateCity : Operation :=
  {| node := {| name := Some "UpdateCity"; variableDefinitions := ["city"] |};
     documentVariableName := "UpdateCityDocument";
     operationType := "Mutation";
     operationResultType := "UpdateCityMutation";
     operationVariablesType := "UpdateCityMutationVariables";
     hasRequiredVars := true |}.

(** A stand-in for object-hash where an example has to name one: the
    generated repositories never call it. *)
Definition sample_hash : Val → string := ToString.

(** A generated repository after its first [read(client, melbourne)]:
    one fetch pending, nothing stored. *)
Definition pending_melbourne : Repo :=
  (read sample_hash generated_options createRepository [client; melbourne]).1.

(** The same repository once that fetch has been fulfilled. *)
Definition resolved_melbourne : Repo :=
  {| cache := {[ "" := VStr "sunny" ]};
     inflight := ∅;
     calls := [[client; melbourne]] |}.

(** The event does not fulfil a fetch pending for [k]. *)
Definition fulfils_no_fetch_for (k : string) (r : Repo) (ev : Event) : Prop :=
  match ev with
  | Resolve p _ => inflight r !! p ≠ Some k
  | _ => True
  end.

(** The outcome is a [throw] of a promise. *)
Definition suspended (o : Outcome) : bool :=
  match o with Suspended _ => true | _ => false end.

(** The values the fetches of a run were fulfilled with, in order. *)
Definition resolved_values (evs : list Event) : list Val :=
  omap (λ ev, match ev with Resolve _ v => Some v | _ => None end) evs.

(** A repository whose key function maps every call to the name of a
    member of [Object.prototype]. *)
Definition constructor_options : option RepositoryOptions :=
  Some {| toCacheKey := Some (λ _, Some "constructor") |}.

(** A repository without an override, after [read("a")] and [read("b")]
    under [sample_hash], which keys them "a" and "b". *)
Definition pending_a_b : Repo :=
  (read sample_hash None
     (read sample_hash None createRepository [VStr "a"]).1 [VStr "b"]).1.

(** The entry [buildOperation] records for an operation that it
    generates: the converted name with the operation type as suffix, the
    client action and the options type of a query. *)
Definition queryBinding (pascalCase : string → string)
    (convertName : string → ConvertOptions → string) (op : Operation) : Binding :=
  {| binding_name :=
       convertName (default "" (name (node op)))
         {| suffix := pascalCase (operationType op);
            useTypesPrefix := Some false; useTypesSuffix := Some false |};
     action := "query";
     type := "Omit<QueryOptions<" +:+ operationVariablesType op +:+ ", "
             +:+ operationResultType op +:+ ">, 'query'>" |}.

(** A file or extension name: a text without dot and without slash. *)
Definition plain_name (s : string) : Prop :=
  Forall (λ c, c ≠ CHAR_DOT ∧ c ≠ CHAR_FORWARD_SLASH)
    (String.list_ascii_of_string s).

(** What may stand before a file name: nothing, or a path that ends with
    a slash. *)
Definition directory_prefix (dir : string) : Prop :=
  dir = "" ∨ ∃ d, dir = d +:+ "/".

(** A naming convention that leaves the operation name as it is and
    appends the suffix, as the default one does on a Pascal-case name. *)
Definition appendSuffix (nodeName : string) (o : ConvertOptions) : string :=
  nodeName +:+ suffix o.

End Scenario.

Import JS Repository Text Codegen Plugin Scenario.

(** * Properties *)

(** ** The cache object *)

Lemma is_undefined_true (v : Val) : is_undefined v = true ↔ v = VUndefined.
Proof. destruct v; simpl; split; congruence. Qed.

Lemma cache_get_insert_eq (c : gmap string Val) k v :
  cache_get (<[k := v]> c) k = v.
Proof. unfold cache_get. by rewrite lookup_insert_eq. Qed.

Lemma cache_get_insert_ne (c : gmap string Val) k k' v :
  k ≠ k' → cache_get (<[k := v]> c) k' = cache_get c k'.
Proof. intros Hne. unfold cache_get. by rewrite lookup_insert_ne. Qed.

(** A key whose slot reads [undefined] is not a member inherited from
    [Object.prototype]. *)
Lemma undefined_slot_not_inherited (c : gmap string Val) k :
  cache_get c k = VUndefined → c !! k = None → inherited k = false.
Proof.
  unfold cache_get. intros Hget Hown. rewrite Hown in Hget.
  destruct (inherited k); [| done].
  destruct (String.eqb k "__proto__"); discriminate.
Qed.

Section RepositoryFacts.

Variable hash : Val -> string.
Variable options : option RepositoryOptions.

Local Abbreviation cacheKey := (cacheKey hash options).
Local Abbreviation read := (read hash options).
Local Abbreviation step := (step hash options).
Local Abbreviation exec := (exec hash options).
Local Abbreviation run := (run hash options).
Local Abbreviation along := (along hash options).

(** ** One call of [read] *)

Lemma read_hit r args k :
  cacheKey args = Some k →
  is_undefined (cache_get (cache r) k) = false →
  read r args = (r, Returned (cache_get (cache r) k)).
Proof. intros Hk Hdef. unfold Repository.read. by rewrite Hk, Hdef. Qed.

Lemma read_miss r args k :
  cacheKey args = Some k →
  cache_get (cache r) k = VUndefined →
  read r args =
    ({| cache := cache r;
        inflight := <[length (calls r) := k]> (inflight r);
        calls := calls r ++ [args] |},
     Suspended (length (calls r))).
Proof. intros Hk Hundef. unfold Repository.read. by rewrite Hk, Hundef. Qed.

Lemma read_cache r args : cache (read r args).1 = cache r.
Proof.
  unfold Repository.read. destruct (cacheKey args) as [k|]; [| done].
  by destruct (is_undefined (cache_get (cache r) k)).
Qed.

(** ** Runs *)

Lemma run_nil r : run r [] = Some r.
Proof. done. Qed.

Lemma run_cons r ev evs :
  run r (ev :: evs) = (step r ev ≫= λ x, run x.1 evs).
Proof.
  unfold Repository.run. simpl.
  destruct (step r ev) as [[r1 os1]|]; [| done]. simpl.
  by destruct (exec r1 evs) as [[r2 os2]|].
Qed.

(** A property of the state kept by every step whose event satisfies [Q]
    is kept by every run of such events. *)
Lemma run_preserves (P : Repo → Prop) (Q : Repo → Event → Prop) :
  (∀ r ev x, P r → Q r ev → step r ev = Some x → P x.1) →
  ∀ evs r r', P r → along Q r evs → run r evs = Some r' → P r'.
Proof.
  intros Hstep evs. induction evs as [| ev evs IH]; intros r r' HP HQ Hrun.
  - rewrite run_nil in Hrun. by simplify_eq.
  - rewrite run_cons in Hrun. destruct HQ as [Hev Hevs].
    destruct (step r ev) as [x|] eqn:Hx; [| done]. simpl in Hrun.
    eapply IH; [| by apply Hevs | done]. by eapply Hstep.
Qed.

Lemma along_any_event evs : ∀ r, along any_event r evs.
Proof. induction evs as [| ev evs IH]; intros r; simpl; [done |]. by split. Qed.

Lemma step_Read r args :
  step r (Read args) = Some ((read r args).1, [(read r args).2]).
Proof. simpl. by destruct (read r args). Qed.

Lemma step_Resolve r p v x :
  step r (Resolve p v) = Some x →
  ∃ k, inflight r !! p = Some k
       ∧ x = ({| cache := <[k := v]> (cache r);
                 inflight := delete p (inflight r);
                 calls := calls r |}, []).
Proof.
  simpl. unfold resolve. destruct (inflight r !! p) as [k|]; simpl; [| done].
  intros [= <-]. by exists k.
Qed.

Lemma step_Reject r p reason x :
  step r (Reject p reason) = Some x →
  ∃ k, inflight r !! p = Some k
       ∧ x = ({| cache := cache r;
                 inflight := delete p (inflight r);
                 calls := calls r |}, []).
Proof.
  simpl. unfold reject. destruct (inflight r !! p) as [k|]; simpl; [| done].
  intros [= <-]. by exists k.
Qed.

(** The three shapes of a step, for proofs by cases on the event. *)
Lemma step_cases r ev x :
  step r ev = Some x →
  (∃ args, ev = Read args ∧ x.1 = (read r args).1)
  ∨ (∃ p v k, ev = Resolve p v ∧ inflight r !! p = Some k
              ∧ cache x.1 = <[k := v]> (cache r)
              ∧ inflight x.1 = delete p (inflight r)
              ∧ calls x.1 = calls r)
  ∨ (∃ p reason k, ev = Reject p reason ∧ inflight r !! p = Some k
              ∧ cache x.1 = cache r
              ∧ inflight x.1 = delete p (inflight r)
              ∧ calls x.1 = calls r).
Proof.
  destruct ev as [args | p v | p reason]; intros Hx.
  - left. exists args. rewrite step_Read in Hx. by simplify_eq.
  - right; left. apply step_Resolve in Hx as (k & Hp & ->). by exists p, v, k.
  - right; right. apply step_Reject in Hx as (k & Hp & ->). by exists p, reason, k.
Qed.

(** ** Invariants of runs *)

(** A slot that holds a value stays defined while no fetch for its key is
    fulfilled with [undefined]. *)
Lemma defined_slot_preserved k evs r r' :
  is_undefined (cache_get (cache r) k) = false →
  along (stores_defined k) r evs →
  run r evs = Some r' →
  is_undefined (cache_get (cache r') k) = false.
Proof.
  apply (run_preserves (λ r, is_undefined (cache_get (cache r) k) = false)).
  clear. intros r ev x Hdef Hev Hx.
  apply step_cases in Hx
    as [(args & -> & ->)
       | [(p & v & k0 & -> & Hp & -> & _) | (p & e & k0 & -> & _ & -> & _)]].
  - by rewrite read_cache.
  - destruct (decide (k0 = k)) as [-> |].
    + rewrite cache_get_insert_eq. by apply Hev.
    + by rewrite cache_get_insert_ne.
  - done.
Qed.

(** A slot that reads [undefined] keeps doing so while every fetch
    fulfilled for its key carries [undefined]. *)
Lemma undefined_slot_preserved k evs r r' :
  cache_get (cache r) k = VUndefined →
  along (stores_undefined k) r evs →
  run r evs = Some r' →
  cache_get (cache r') k = VUndefined.
Proof.
  apply (run_preserves (λ r, cache_get (cache r) k = VUndefined)).
  clear. intros r ev x Hdef Hev Hx.
  apply step_cases in Hx
    as [(args & -> & ->)
       | [(p & v & k0 & -> & Hp & -> & _) | (p & e & k0 & -> & _ & -> & _)]].
  - by rewrite read_cache.
  - destruct (decide (k0 = k)) as [-> |].
    + rewrite cache_get_insert_eq. by apply Hev.
    + by rewrite cache_get_insert_ne.
  - done.
Qed.

(** A slot that holds a value, with no fetch for its key pending, is
    never written again. *)
Lemma settled_slot_step k v r ev x :
  is_undefined v = false →
  cache_get (cache r) k = v ∧ no_fetch_in_flight k r →
  step r ev = Some x →
  cache_get (cache x.1) k = v ∧ no_fetch_in_flight k x.1.
Proof.
  intros Hv [Hget Hnone] Hx.
  apply step_cases in Hx as [(args & -> & ->) | [(p & w & k0 & -> & Hp & Hc & Hi & _) | (p & e & k0 & -> & Hp & Hc & Hi & _)]].
  - split; [by rewrite read_cache |].
    unfold Repository.read. destruct (cacheKey args) as [k0|]; [| done].
    destruct (is_undefined (cache_get (cache r) k0)) eqn:Hk0; [| done].
    intros q. simpl. destruct (decide (length (calls r) = q)) as [<- |].
    + rewrite lookup_insert_eq. intros [= ->]. congruence.
    + rewrite lookup_insert_ne by done. apply Hnone.
  - assert (k0 ≠ k) by (intros ->; by apply (Hnone p)).
    split.
    + rewrite Hc. by rewrite cache_get_insert_ne.
    + intros q. rewrite Hi. intros [_ Hq]%lookup_delete_Some. by apply (Hnone q).
  - split; [by rewrite Hc |].
    intros q. rewrite Hi. intros [_ Hq]%lookup_delete_Some. by apply (Hnone q).
Qed.

Lemma settled_slot_preserved k v evs r r' :
  is_undefined v = false →
  cache_get (cache r) k = v → no_fetch_in_flight k r →
  run r evs = Some r' →
  cache_get (cache r') k = v ∧ no_fetch_in_flight k r'.
Proof.
  intros Hv Hget Hnone Hrun.
  apply (run_preserves
           (λ r, cache_get (cache r) k = v ∧ no_fetch_in_flight k r)
           any_event) with (evs := evs) (r := r); [| done | | done].
  - intros r0 ev x HP _ Hx. by eapply settled_slot_step.
  - apply along_any_event.
Qed.

(** No event deletes an own property of [cache]. *)
Lemma own_keys_kept k evs r r' :
  is_Some (cache r !! k) → run r evs = Some r' → is_Some (cache r' !! k).
Proof.
  intros Hown Hrun.
  apply (run_preserves (λ r, is_Some (cache r !! k)) any_event)
    with (evs := evs) (r := r); [| done | | done].
  - clear. intros r ev x Hown _ Hx.
    apply step_cases in Hx as [(args & -> & ->) | [(p & w & k0 & -> & _ & -> & _) | (p & e & k0 & -> & _ & -> & _)]].
    + by rewrite read_cache.
    + rewrite lookup_insert_is_Some. destruct (decide (k0 = k)); auto.
    + done.
  - apply along_any_event.
Qed.

(** Starting from [createRepository], a fetch is only ever started, and
    a value only ever stored, under a key that [Object.prototype] does
    not define: for an inherited key [read] finds the member and returns
    it.  So the assignment [cache[cacheKey] = value] always creates or
    updates an own property, which is how [resolve] models it. *)
Lemma stored_keys_not_inherited evs r :
  run createRepository evs = Some r →
  (∀ p k, inflight r !! p = Some k → inherited k = false)
  ∧ (∀ k, is_Some (cache r !! k) → inherited k = false).
Proof.
  intros Hrun.
  apply (run_preserves
           (λ r, (∀ p k, inflight r !! p = Some k → inherited k = false)
                 ∧ (∀ k, is_Some (cache r !! k) → inherited k = false))
           any_event) with (evs := evs) (r := createRepository);
    [| | apply along_any_event | done].
  - clear. intros r ev x [Hfl Hown] _ Hx.
    apply step_cases in Hx as [(args & -> & ->) | [(p & w & k0 & -> & Hp & Hc & Hi & _) | (p & e & k0 & -> & Hp & Hc & Hi & _)]].
    + split; [| by rewrite read_cache].
      unfold Repository.read. destruct (cacheKey args) as [k0|]; [| done].
      destruct (is_undefined (cache_get (cache r) k0)) eqn:Hk0; [| done].
      apply is_undefined_true in Hk0.
      intros q k. simpl. destruct (decide (length (calls r) = q)) as [<- |].
      * rewrite lookup_insert_eq. intros [= <-].
        destruct (cache r !! k0) as [w|] eqn:Hw.
        -- apply Hown. by rewrite Hw.
        -- by eapply undefined_slot_not_inherited.
      * rewrite lookup_insert_ne by done. apply Hfl.
    + split.
      * intros q k. rewrite Hi. intros [_ Hq]%lookup_delete_Some. by eapply Hfl.
      * intros k. rewrite Hc, lookup_insert_is_Some.
        intros [<- | [_ Hk]]; [by eapply Hfl | by apply Hown].
    + split.
      * intros q k. rewrite Hi. intros [_ Hq]%lookup_delete_Some. by eapply Hfl.
      * intros k. rewrite Hc. apply Hown.
  - split.
    + intros p k. simpl. by rewrite lookup_empty.
    + intros k [w Hw]. simpl in Hw. by rewrite lookup_empty in Hw.
Qed.

Lemma exec_cons r ev evs :
  exec r (ev :: evs) =
    ('(r1, os1) ← step r ev; '(r2, os2) ← exec r1 evs; Some (r2, os1 ++ os2)).
Proof. done. Qed.

Lemma resolve_pending r p k v :
  inflight r !! p = Some k →
  resolve r p v =
    Some {| cache := <[k := v]> (cache r);
            inflight := delete p (inflight r);
            calls := calls r |}.
Proof. intros Hp. unfold resolve. by rewrite Hp. Qed.

(** ** The contract of [read] *)

(** C1, as amended: once a fetch for [k] has been fulfilled with a value
    other than [undefined] and the value is stored, every later read that
    derives [k] returns, synchronously and without calling the fetcher
    (the state, and with it the log of fetcher calls, is unchanged), the
    value then stored under [k], for as long as no fetch for [k] is
    fulfilled with [undefined]; and that value is the one of this fetch
    when no other fetch for [k] was pending at the time it was stored. *)
Theorem cache_hit_after_defined_resolution r p k v r1 evs r2 args :
  inflight r !! p = Some k →
  resolve r p v = Some r1 →
  is_undefined v = false →
  along (stores_defined k) r1 evs →
  run r1 evs = Some r2 →
  cacheKey args = Some k →
  read r2 args = (r2, Returned (cache_get (cache r2) k))
  ∧ is_undefined (cache_get (cache r2) k) = false
  ∧ (no_fetch_in_flight k r1 → cache_get (cache r2) k = v).
Proof.
  intros Hp Hres Hv Hevs Hrun Hk.
  rewrite (resolve_pending _ _ _ _ Hp) in Hres. injection Hres as <-.
  assert (Hdef : is_undefined (cache_get (cache r2) k) = false).
  { eapply defined_slot_preserved; [| done | done].
    simpl. by rewrite cache_get_insert_eq. }
  split; [by apply read_hit |]. split; [done |].
  intros Hnone.
  eapply (settled_slot_preserved k v); [done | | done | done].
  simpl. by rewrite cache_get_insert_eq.
Qed.

Lemma exec_cons_Some r ev evs r' os :
  exec r (ev :: evs) = Some (r', os) →
  ∃ x os', step r ev = Some x ∧ exec x.1 evs = Some (r', os') ∧ os = x.2 ++ os'.
Proof.
  rewrite exec_cons. destruct (step r ev) as [[r1 os1]|]; [| done]. simpl.
  destruct (exec r1 evs) as [[r2 os2]|] eqn:Hrest; [| done]. simpl.
  intros [= <- <-]. by exists (r1, os1), os2.
Qed.

(** While the slot of [k] reads [undefined], the fetcher calls made for
    [k] during a run are the reads for [k] of that run, one call each and
    in the same order, whatever else happens in between. *)
Lemma fetches_match_reads k evs : ∀ r r' os,
  cache_get (cache r) k = VUndefined →
  along (stores_undefined k) r evs →
  exec r evs = Some (r', os) →
  ∃ new,
    calls r' = calls r ++ new
    ∧ filter (λ args, cacheKey args = Some k) new
      = filter (λ args, cacheKey args = Some k) (reads_of evs)
    ∧ cache_get (cache r') k = VUndefined.
Proof.
  induction evs as [| ev evs IH]; intros r r' os Hundef Halong Hexec.
  - injection Hexec as <- <-. exists []. by rewrite app_nil_r.
  - apply exec_cons_Some in Hexec as (x & os' & Hx & Hexec & _).
    destruct Halong as [Hev Halong]. specialize (Halong x Hx).
    destruct ev as [args | p v | p reason].
    + rewrite step_Read in Hx. injection Hx as <-. simpl in Hexec, Halong.
      destruct (IH _ _ _ ltac:(by rewrite read_cache) Halong Hexec)
        as (new & Hcalls & Hfilter & Hundef').
      unfold reads_of in *. simpl. rewrite filter_cons.
      unfold Repository.read in Hcalls |- *.
      destruct (cacheKey args) as [k0|] eqn:Hk0.
      * destruct (is_undefined (cache_get (cache r) k0)) eqn:Hmiss.
        -- exists (args :: new). simpl in Hcalls.
           rewrite Hcalls, <- app_assoc. split; [done |]. split; [| done].
           rewrite filter_cons, Hk0. by rewrite Hfilter.
        -- exists new. split; [done |]. split; [| done].
           rewrite decide_False; [done |].
           intros [= ->]. by rewrite Hundef in Hmiss.
      * exists new. split; [done |]. split; [| done]. by rewrite decide_False.
    + apply step_cases in Hx
        as [(? & ? & _) | [(? & w & k0 & [= <- <-] & Hp & Hc & _ & Hcalls)
                          | (? & ? & ? & ? & _)]]; try done.
      destruct (IH x.1 r' os') as (new & Hnew & Hfilter & Hundef'); [| done | done |].
      * rewrite Hc. destruct (decide (k0 = k)) as [-> |].
        -- rewrite cache_get_insert_eq. by apply Hev.
        -- by rewrite cache_get_insert_ne.
      * exists new. by rewrite <- Hcalls.
    + apply step_cases in Hx
        as [(? & ? & _) | [(? & ? & ? & ? & _)
                          | (? & e & k0 & [= <- <-] & Hp & Hc & _ & Hcalls)]];
        try done.
      destruct (IH x.1 r' os') as (new & Hnew & Hfilter & Hundef'); [| done | done |].
      * by rewrite Hc.
      * exists new. by rewrite <- Hcalls.
Qed.

(** C3, as amended: [N] reads that derive the key [k], issued while the
    slot of [k] reads [undefined] and with no settlement in between, all
    suspend and call the fetcher once each, with their own arguments: the
    log grows by exactly these [N] calls, the cache is untouched, and
    each of the [N] promises is pending for [k].  With other events in
    between, none of which fulfils a fetch for [k] with a value, the
    fetcher calls made for [k] are still exactly the reads for [k], one
    call each.  In a new repository the slot reads [undefined] for every
    key that is not the name of a member of [Object.prototype], so there
    [N] reads for such a key make exactly [N] fetcher calls. *)
Theorem reads_before_resolution_all_fetch k :
  (∀ argss r,
     cache_get (cache r) k = VUndefined →
     Forall (λ args, cacheKey args = Some k) argss →
     ∃ r',
       exec r (Read <$> argss)
         = Some (r', Suspended <$> seq (length (calls r)) (length argss))
       ∧ calls r' = calls r ++ argss
       ∧ length (calls r') = length (calls r) + length argss
       ∧ cache r' = cache r
       ∧ (∀ p, p < length (calls r) → inflight r' !! p = inflight r !! p)
       ∧ (∀ i, i < length argss → inflight r' !! (length (calls r) + i) = Some k))
  ∧ (∀ evs r r' os,
       cache_get (cache r) k = VUndefined →
       along (stores_undefined k) r evs →
       exec r evs = Some (r', os) →
       ∃ new,
         calls r' = calls r ++ new
         ∧ filter (λ args, cacheKey args = Some k) new
           = filter (λ args, cacheKey args = Some k) (reads_of evs))
  ∧ (inherited k = false →
     ∀ argss,
       Forall (λ args, cacheKey args = Some k) argss →
       ∃ r',
         exec createRepository (Read <$> argss)
           = Some (r', Suspended <$> seq 0 (length argss))
         ∧ calls r' = argss
         ∧ cache r' = ∅).
Proof.
  assert (Hconsecutive : ∀ argss r,
     cache_get (cache r) k = VUndefined →
     Forall (λ args, cacheKey args = Some k) argss →
     ∃ r',
       exec r (Read <$> argss)
         = Some (r', Suspended <$> seq (length (calls r)) (length argss))
       ∧ calls r' = calls r ++ argss
       ∧ length (calls r') = length (calls r) + length argss
       ∧ cache r' = cache r
       ∧ (∀ p, p < length (calls r) → inflight r' !! p = inflight r !! p)
       ∧ (∀ i, i < length argss → inflight r' !! (length (calls r) + i) = Some k));
    [| split; [exact Hconsecutive | split]].
  - intros argss. induction argss as [| args argss IH]; intros r Hundef Hall.
    + exists r. simpl. rewrite app_nil_r. repeat split; [lia | intros; lia].
    + inversion_clear Hall as [| ? ? Hk Hrest].
      pose proof (read_miss r args k Hk Hundef) as Hread.
      set (r1 := {| cache := cache r;
                    inflight := <[length (calls r) := k]> (inflight r);
                    calls := calls r ++ [args] |}) in Hread.
      destruct (IH r1) as (r' & Hexec & Hcalls & Hlen & Hcache & Hold & Hnew);
        [done | done |].
      assert (Hl1 : length (calls r1) = S (length (calls r))).
      { simpl. rewrite length_app. simpl. lia. }
      rewrite Hl1 in *.
      exists r'. rewrite fmap_cons, exec_cons, step_Read, Hread. simpl.
      rewrite Hexec. simpl.
      split; [done |]. split; [by rewrite Hcalls; simpl; rewrite <- app_assoc |].
      split; [lia |]. split; [done |]. split.
      * intros q Hq. rewrite Hold by lia. simpl. by rewrite lookup_insert_ne by lia.
      * intros [| i] Hi.
        -- rewrite Nat.add_0_r, Hold by lia. simpl. by rewrite lookup_insert_eq.
        -- replace (length (calls r) + S i) with (S (length (calls r)) + i) by lia.
           apply Hnew. simpl in Hi. lia.
  - intros evs r r' os Hundef Halong Hexec.
    destruct (fetches_match_reads k evs r r' os Hundef Halong Hexec)
      as (new & Hcalls & Hfilter & _).
    by exists new.
  - intros Hk argss Hall.
    destruct (Hconsecutive argss createRepository) as (r' & Hexec & Hcalls & _ & Hcache & _);
      [| done |].
    + unfold cache_get. simpl. by rewrite lookup_empty, Hk.
    + exists r'. by repeat split.
Qed.

(** C4: when a pending fetch for [k] is rejected while the slot of [k]
    reads [undefined], nothing is stored: the cache is the one before the
    rejection, [k] still reads [undefined], the promise is gone, and the
    next read that derives [k] calls the fetcher anew and suspends on a
    fresh promise. *)
Theorem rejection_is_not_cached r p k reason :
  inflight r !! p = Some k →
  cache_get (cache r) k = VUndefined →
  ∃ r',
    step r (Reject p reason) = Some (r', [])
    ∧ cache r' = cache r
    ∧ cache_get (cache r') k = VUndefined
    ∧ inflight r' !! p = None
    ∧ calls r' = calls r
    ∧ ∀ args, cacheKey args = Some k →
        ∃ r'', read r' args = (r'', Suspended (length (calls r')))
               ∧ calls r'' = calls r ++ [args]
               ∧ inflight r'' !! length (calls r') = Some k.
Proof.
  intros Hp Hundef.
  exists {| cache := cache r; inflight := delete p (inflight r); calls := calls r |}.
  split; [simpl; unfold reject; by rewrite Hp |].
  split; [done |]. split; [done |]. split; [apply lookup_delete_eq |].
  split; [done |].
  intros args Hk. eexists. split; [by apply (read_miss _ args k) |].
  split; [done |]. simpl. apply lookup_insert_eq.
Qed.

(** C5, as amended: no event removes an own property of the cache, and
    [read] leaves the cache as it is; a key that holds a value other than
    [undefined], with no fetch for it pending, maps to that same value
    after every run of events, and no fetch for it is ever started
    again. *)
Theorem resolved_entry_stable_without_pending_fetch :
  (∀ r args, cache (read r args).1 = cache r)
  ∧ (∀ k evs r r',
       is_Some (cache r !! k) → run r evs = Some r' → is_Some (cache r' !! k))
  ∧ (∀ k v evs r r',
       cache_get (cache r) k = v →
       is_undefined v = false →
       no_fetch_in_flight k r →
       run r evs = Some r' →
       cache_get (cache r') k = v ∧ no_fetch_in_flight k r').
Proof.
  split; [apply read_cache |]. split; [apply own_keys_kept |].
  intros k v evs r r' Hget Hv Hnone Hrun.
  by eapply settled_slot_preserved.
Qed.

(** C10: a fetch fulfilled with [undefined] does store an own property,
    but the slot then reads [undefined] exactly as it would with the
    property deleted; so, for as long as the fetches for the key are
    fulfilled with [undefined], every read that derives the key calls the
    fetcher again and suspends instead of returning. *)
Theorem undefined_result_is_never_a_hit r p k :
  inflight r !! p = Some k →
  ∃ r1,
    resolve r p VUndefined = Some r1
    ∧ cache r1 !! k = Some VUndefined
    ∧ cache_get (cache r1) k = VUndefined
    ∧ (inherited k = false →
       cache_get (delete k (cache r1)) k = cache_get (cache r1) k)
    ∧ ∀ evs r2 args,
        along (stores_undefined k) r1 evs →
        run r1 evs = Some r2 →
        cacheKey args = Some k →
        ∃ r3, read r2 args = (r3, Suspended (length (calls r2)))
              ∧ calls r3 = calls r2 ++ [args].
Proof.
  intros Hp. eexists. split; [by apply resolve_pending |].
  split; [apply lookup_insert_eq |].
  split; [simpl; apply cache_get_insert_eq |].
  split.
  { intros Hk. simpl. rewrite cache_get_insert_eq.
    unfold cache_get. by rewrite lookup_delete_eq, Hk. }
  intros evs r2 args Hevs Hrun Hk.
  eexists. split.
  - apply (read_miss _ args k); [done |].
    eapply undefined_slot_preserved; [| done | done].
    simpl. apply cache_get_insert_eq.
  - done.
Qed.

End RepositoryFacts.

(** ** Examples of the contract of [read] *)

Lemma cache_hit_after_defined_resolution_witness :
  resolve pending_melbourne 0 (VStr "sunny") = Some resolved_melbourne
  ∧ read sample_hash generated_options resolved_melbourne [client; sydney]
    = (resolved_melbourne, Returned (VStr "sunny")).
Proof.
  assert (Hres : resolve pending_melbourne 0 (VStr "sunny") = Some resolved_melbourne)
    by (vm_compute; reflexivity).
  split; [exact Hres |].
  destruct (cache_hit_after_defined_resolution sample_hash generated_options
              pending_melbourne 0 "" (VStr "sunny") resolved_melbourne
              [Read [client; melbourne]] resolved_melbourne [client; sydney])
    as (Hread & _ & Hsame).
  - vm_compute; reflexivity.
  - exact Hres.
  - reflexivity.
  - simpl. split; [exact I | intros x _; exact I].
  - vm_compute; reflexivity.
  - reflexivity.
  - rewrite Hread, Hsame; [reflexivity |].
    intros q. unfold resolved_melbourne. simpl. by rewrite lookup_empty.
Defined.

(** C1 as stated fails when the fetch is fulfilled with [undefined]: the
    value is stored, yet the next read with the same arguments does not
    return it and calls the fetcher a second time. *)
Lemma cache_hit_after_resolution_counterexample :
  ∃ r1,
    resolve pending_melbourne 0 VUndefined = Some r1
    ∧ cache r1 !! "" = Some VUndefined
    ∧ cacheKey sample_hash generated_options [client; melbourne] = Some ""
    ∧ read sample_hash generated_options r1 [client; melbourne]
      ≠ (r1, Returned VUndefined)
    ∧ (read sample_hash generated_options r1 [client; melbourne]).2 = Suspended 1
    ∧ calls (read sample_hash generated_options r1 [client; melbourne]).1
      = [[client; melbourne]; [client; melbourne]].
Proof.
  eexists. split; [vm_compute; reflexivity |].
  split; [vm_compute; reflexivity |]. split; [reflexivity |].
  split; [| split; vm_compute; reflexivity].
  intros Heq. apply (f_equal snd) in Heq. vm_compute in Heq. discriminate.
Qed.

Lemma reads_before_resolution_all_fetch_witness :
  ∃ r',
    exec sample_hash generated_options createRepository
      [Read [client; melbourne]; Read [client; melbourne]; Read [client; melbourne]]
      = Some (r', [Suspended 0; Suspended 1; Suspended 2])
    ∧ length (calls r') = 3.
Proof.
  destruct (proj1 (reads_before_resolution_all_fetch sample_hash generated_options "")
              [[client; melbourne]; [client; melbourne]; [client; melbourne]]
              createRepository)
    as (r' & Hexec & _ & Hlen & _).
  - reflexivity.
  - repeat constructor.
  - exists r'. split; [exact Hexec | exact Hlen].
Defined.

(** C3 as stated fails for a key that names a member of
    [Object.prototype]: in a new repository whose key function derives
    constructor, three reads before any settlement return the inherited
    member and call the fetcher not once. *)
Lemma reads_before_resolution_counterexample :
  cacheKey sample_hash constructor_options [client; melbourne] = Some "constructor"
  ∧ exec sample_hash constructor_options createRepository
      [Read [client; melbourne]; Read [client; melbourne]; Read [client; melbourne]]
    = Some (createRepository,
            [Returned (VFun "constructor"); Returned (VFun "constructor");
             Returned (VFun "constructor")])
  ∧ calls createRepository = [].
Proof. repeat split. Qed.

Lemma rejection_is_not_cached_witness :
  ∃ r',
    step sample_hash generated_options pending_melbourne
      (Reject 0 (VStr "network error")) = Some (r', [])
    ∧ cache r' = ∅
    ∧ (read sample_hash generated_options r' [client; melbourne]).2 = Suspended 1.
Proof.
  destruct (rejection_is_not_cached sample_hash generated_options
              pending_melbourne 0 "" (VStr "network error"))
    as (r' & Hstep & Hcache & _ & _ & Hcalls & Hnext).
  - vm_compute; reflexivity.
  - reflexivity.
  - exists r'. split; [exact Hstep |]. split; [exact Hcache |].
    destruct (Hnext [client; melbourne]) as (r'' & Hread & _); [reflexivity |].
    rewrite Hread, Hcalls. reflexivity.
Defined.

Lemma resolved_entry_stable_without_pending_fetch_witness :
  run sample_hash generated_options resolved_melbourne
    [Read [client; sydney]; Read [client; melbourne]] = Some resolved_melbourne
  ∧ cache_get (cache resolved_melbourne) "" = VStr "sunny"
  ∧ no_fetch_in_flight "" resolved_melbourne.
Proof.
  assert (Hrun : run sample_hash generated_options resolved_melbourne
                   [Read [client; sydney]; Read [client; melbourne]]
                 = Some resolved_melbourne) by (vm_compute; reflexivity).
  split; [exact Hrun |].
  apply (proj2 (proj2 (resolved_entry_stable_without_pending_fetch
                         sample_hash generated_options))
           "" (VStr "sunny") [Read [client; sydney]; Read [client; melbourne]]
           resolved_melbourne resolved_melbourne); [| | | exact Hrun].
  - reflexivity.
  - reflexivity.
  - intros q. unfold resolved_melbourne. simpl. by rewrite lookup_empty.
Defined.

(** C5 as stated fails when two fetches for one key are pending: the
    value stored by the first is overwritten by the second, and a second
    fetch fulfilled with [undefined] makes the key read as absent
    again. *)
Lemma resolved_entry_overwritten_counterexample :
  ∃ r1 r2 r3,
    run sample_hash generated_options createRepository
      [Read [client; melbourne]; Read [client; melbourne]; Resolve 0 (VStr "sunny")]
      = Some r1
    ∧ cache_get (cache r1) "" = VStr "sunny"
    ∧ run sample_hash generated_options r1 [Resolve 1 (VStr "rain")] = Some r2
    ∧ cache_get (cache r2) "" = VStr "rain"
    ∧ run sample_hash generated_options r1 [Resolve 1 VUndefined] = Some r3
    ∧ cache_get (cache r3) "" = VUndefined.
Proof.
  do 3 eexists.
  split; [vm_compute; reflexivity |].
  split; [vm_compute; reflexivity |].
  split; [vm_compute; reflexivity |].
  split; [vm_compute; reflexivity |].
  split; vm_compute; reflexivity.
Qed.

Lemma undefined_result_is_never_a_hit_witness :
  ∃ r1,
    resolve pending_melbourne 0 VUndefined = Some r1
    ∧ (read sample_hash generated_options r1 [client; melbourne]).2 = Suspended 1.
Proof.
  destruct (undefined_result_is_never_a_hit sample_hash generated_options
              pending_melbourne 0 "")
    as (r1 & Hres & _ & _ & _ & Hnext).
  - vm_compute; reflexivity.
  - exists r1. split; [exact Hres |].
    destruct (Hnext [] r1 [client; melbourne]) as (r3 & Hread & _);
      [exact I | reflexivity | reflexivity |].
    rewrite Hread. simpl.
    unfold resolve in Hres. vm_compute in Hres. by injection Hres as <-.
Defined.

(** ** Cache keys *)

Section CacheKeys.

Variable hash : Val -> string.

Lemma generated_key_of_array (a : Val) : toCacheKey_generated [a] = Some "".
Proof. reflexivity. Qed.

Lemma generated_cacheKey args : cacheKey hash generated_options args = Some "".
Proof. reflexivity. Qed.

(** In a generated repository every pending fetch and every own property
    of the cache is keyed by the empty string. *)
Lemma generated_keys_empty evs r :
  run hash generated_options createRepository evs = Some r →
  (∀ p k, inflight r !! p = Some k → k = "")
  ∧ (∀ k, is_Some (cache r !! k) → k = "").
Proof.
  intros Hrun.
  apply (run_preserves hash generated_options
           (λ r, (∀ p k, inflight r !! p = Some k → k = "")
                 ∧ (∀ k, is_Some (cache r !! k) → k = ""))
           any_event) with (evs := evs) (r := createRepository);
    [| | apply along_any_event | done].
  - clear. intros r ev x [Hfl Hown] _ Hx.
    apply step_cases in Hx
      as [(args & -> & ->)
         | [(p & w & k0 & -> & Hp & Hc & Hi & _)
           | (p & e & k0 & -> & Hp & Hc & Hi & _)]].
    + split; [| by rewrite read_cache].
      unfold read. rewrite generated_cacheKey.
      destruct (is_undefined (cache_get (cache r) "")); [| done].
      intros q k. simpl. destruct (decide (length (calls r) = q)) as [<- |].
      * rewrite lookup_insert_eq. congruence.
      * rewrite lookup_insert_ne by done. apply Hfl.
    + split.
      * intros q k. rewrite Hi. intros [_ Hq]%lookup_delete_Some. by eapply Hfl.
      * intros k. rewrite Hc, lookup_insert_is_Some.
        intros [<- | [_ Hk]]; [by eapply Hfl | by apply Hown].
    + split.
      * intros q k. rewrite Hi. intros [_ Hq]%lookup_delete_Some. by eapply Hfl.
      * intros k. rewrite Hc. apply Hown.
  - split.
    + intros p k. simpl. by rewrite lookup_empty.
    + intros k [w Hw]. simpl in Hw. by rewrite lookup_empty in Hw.
Qed.

(** C9: [read] hands the override one actual parameter, the array of its
    arguments, so the override's [variables] is [undefined] and the key
    is the empty string whatever the arguments are; a generated
    repository therefore never has an own property other than the one
    named by the empty string, and a value fetched for one argument list
    is what a read with any other argument list returns. *)
Theorem generated_repository_has_one_key :
  (∀ args, param 1 [VArr args] = VUndefined)
  ∧ (∀ args, toCacheKey_generated [VArr args] = Some "")
  ∧ (∀ args, cacheKey hash generated_options args = Some "")
  ∧ (∀ evs r k,
       run hash generated_options createRepository evs = Some r →
       is_Some (cache r !! k) → k = "")
  ∧ (∀ args1 args2 v,
       is_undefined v = false →
       ∃ r1 r2,
         read hash generated_options createRepository args1 = (r1, Suspended 0)
         ∧ resolve r1 0 v = Some r2
         ∧ read hash generated_options r2 args2 = (r2, Returned v)).
Proof.
  split; [done |].
  split; [intros args; apply generated_key_of_array |].
  split; [apply generated_cacheKey |].
  split.
  - intros evs r k Hrun. by apply (generated_keys_empty evs r).
  - intros args1 args2 v Hv. do 2 eexists.
    split; [reflexivity |]. split; [reflexivity |].
    rewrite (read_hit hash generated_options _ args2 "");
      [| reflexivity | simpl; by rewrite cache_get_insert_eq].
    simpl. by rewrite cache_get_insert_eq.
Qed.

(** C2, on the code: called with the client and a variables object, the
    override leaves the client out and joins the values with a dash, so
    it maps the README's variables to melbourne-au; but [read] calls it
    with the argument array as its only parameter, so the key derived for
    a read with those variables is the empty string, and called with the
    accessor's two arguments it would see the options bag, not its
    [variables]. *)
Theorem generated_read_key_ignores_variables (c : Val) :
  cacheKey hash generated_options [c; melbourne] = Some ""
  ∧ toCacheKey_generated [c; melbourne] = Some "[object Object]"
  ∧ toCacheKey_generated
      [c; VObj [("city", VStr "melbourne"); ("country", VStr "au")]]
    = Some "melbourne-au"
  ∧ (∀ props, toCacheKey_generated [c; VObj props] = Some (join "-" (map snd props))).
Proof. repeat split. Qed.

(** C8, on the code: without an override the key is the hash of the
    argument array, and that is so for the empty argument list too: the
    array is truthy, the branch that yields the literal default is never
    taken, and the key is that literal only if the hash function itself
    returns it. *)
Theorem no_arguments_are_hashed_too :
  (∀ args, cacheKey hash None args = Some (hash (VArr args)))
  ∧ (∀ args, cacheKey hash (Some {| toCacheKey := None |}) args
             = Some (hash (VArr args)))
  ∧ (∀ options args,
       cacheKey hash options args = generateCacheKey hash options [VArr args])
  ∧ cacheKey hash None [] = Some (hash (VArr []))
  ∧ (cacheKey hash None [] = Some "default" ↔ hash (VArr []) = "default").
Proof.
  repeat split; try done.
  - intros [= Hdefault]. exact Hdefault.
  - intros Hdefault. unfold cacheKey. simpl. f_equal. exact Hdefault.
Qed.

End CacheKeys.

Lemma generated_repository_has_one_key_witness :
  ∃ r,
    run sample_hash generated_options createRepository
      [Read [client; melbourne]; Resolve 0 (VStr "sunny"); Read [client; sydney]]
      = Some r
    ∧ is_Some (cache r !! "")
    ∧ ∀ k, is_Some (cache r !! k) → k = "".
Proof.
  exists resolved_melbourne.
  assert (Hrun : run sample_hash generated_options createRepository
                   [Read [client; melbourne]; Resolve 0 (VStr "sunny");
                    Read [client; sydney]]
                 = Some resolved_melbourne) by (vm_compute; reflexivity).
  split; [exact Hrun |]. split; [by eexists |].
  intros k.
  exact (proj1 (proj2 (proj2 (proj2 (generated_repository_has_one_key sample_hash))))
           _ resolved_melbourne k Hrun).
Defined.

(** ** The [validate] hook *)

(** C7: [validate] rejects exactly when [disableChecks] is not truthy
    and the extension of the output file is neither .ts nor .tsx; for a
    boolean [disableChecks] that is when it is not [true], and a missing
    one counts as [false].  With checks enabled schema.py is rejected
    with the extension error and schema.tsx is accepted. *)
Theorem validate_rejects_iff_checked_and_not_typescript :
  (∀ config outputFile,
     (∃ message, validate config outputFile = Rejected message)
     ↔ truthy (disableChecks config) = false
       ∧ extname outputFile ≠ ".ts" ∧ extname outputFile ≠ ".tsx")
  ∧ (∀ b outputFile,
       (∃ message, validate {| disableChecks := VBool b |} outputFile = Rejected message)
       ↔ b ≠ true ∧ extname outputFile ≠ ".ts" ∧ extname outputFile ≠ ".tsx")
  ∧ (∀ outputFile,
       (∃ message, validate {| disableChecks := VUndefined |} outputFile = Rejected message)
       ↔ extname outputFile ≠ ".ts" ∧ extname outputFile ≠ ".tsx")
  ∧ validate {| disableChecks := VBool false |} "schema.py"
    = Rejected "The output file must be a typescript file ending with either .ts or .tsx"
  ∧ validate {| disableChecks := VBool false |} "schema.tsx" = Fulfilled
  ∧ validate {| disableChecks := VBool false |} "schema.ts" = Fulfilled
  ∧ validate {| disableChecks := VBool true |} "schema.py" = Fulfilled.
Proof.
  assert (Hgen : ∀ config outputFile,
     (∃ message, validate config outputFile = Rejected message)
     ↔ truthy (disableChecks config) = false
       ∧ extname outputFile ≠ ".ts" ∧ extname outputFile ≠ ".tsx").
  { intros config outputFile. unfold validate, validFileExtensions. simpl.
    destruct (truthy (disableChecks config)).
    - split; [by intros [? ?] | by intros [? _]].
    - destruct (String.eqb_spec (extname outputFile) ".ts") as [-> | Hts]; simpl.
      + split; [by intros [? ?] | by intros (_ & ? & _)].
      + destruct (String.eqb_spec (extname outputFile) ".tsx") as [-> | Htsx]; simpl.
        * split; [by intros [? ?] | by intros (_ & _ & ?)].
        * split; [done | by eexists]. }
  split; [exact Hgen |]. split.
  { intros b outputFile. rewrite Hgen. simpl.
    destruct b; split; intros (Hb & Hext); (split; [congruence | exact Hext]). }
  split.
  { intros outputFile. rewrite Hgen. simpl.
    split; [by intros (_ & Hext) | by intros Hext]. }
  repeat split.
Qed.

(** ** The generator *)

Section GeneratorFacts.

Variable pascalCase : string -> string.
Variable convertName : string -> ConvertOptions -> string.

Local Abbreviation buildOperation := (buildOperation pascalCase convertName).
Local Abbreviation visitOperations := (visitOperations pascalCase convertName).

Lemma body_not_empty nd baseName optionsType documentKeyword clientAction
    documentVariableName operationResultType operationVariablesType :
  body nd baseName optionsType documentKeyword clientAction
    documentVariableName operationResultType operationVariablesType ≠ "".
Proof. unfold body, nl. simpl. discriminate. Qed.

Lemma buildOperation_Mutation this op :
  operationType op = "Mutation" → buildOperation this op = ("", this).
Proof. intros Hop. unfold Codegen.buildOperation. by rewrite Hop. Qed.

Lemma buildOperation_not_Mutation this op :
  operationType op ≠ "Mutation" →
  (buildOperation this op).1 ≠ ""
  ∧ __mutationNames (buildOperation this op).2 = __mutationNames this
  ∧ length (__queryNames (buildOperation this op).2) = S (length (__queryNames this)).
Proof.
  intros Hop. unfold Codegen.buildOperation.
  destruct (String.eqb_spec (operationType op) "Mutation") as [| _]; [done |].
  cbn [andb fst snd __mutationNames __queryNames].
  split; [apply body_not_empty |]. split; [done |].
  rewrite length_app. simpl. lia.
Qed.

Lemma visitOperations_cons this op ops :
  visitOperations this (op :: ops)
  = ((buildOperation this op).1 :: (visitOperations (buildOperation this op).2 ops).1,
     (visitOperations (buildOperation this op).2 ops).2).
Proof.
  simpl. destruct (buildOperation this op) as [text this1]. simpl.
  by destruct (visitOperations this1 ops).
Qed.

(** One text per operation; the non-empty ones are those of the
    operations that are not mutations, each of which adds one entry to
    [__queryNames]; [__mutationNames] never grows. *)
Lemma visitOperations_counts ops : ∀ this,
  length (visitOperations this ops).1 = length ops
  ∧ length (filter (λ text, text ≠ "") (visitOperations this ops).1)
    = length (filter (λ op, operationType op ≠ "Mutation") ops)
  ∧ __mutationNames (visitOperations this ops).2 = __mutationNames this
  ∧ length (__queryNames (visitOperations this ops).2)
    = length (__queryNames this)
      + length (filter (λ op, operationType op ≠ "Mutation") ops).
Proof.
  induction ops as [| op ops IH]; intros this.
  - simpl. repeat split. lia.
  - rewrite visitOperations_cons. cbn [fst snd].
    destruct (IH (buildOperation this op).2) as (Hlen & Htexts & Hmut & Hque).
    rewrite !filter_cons.
    destruct (decide (operationType op = "Mutation")) as [Hop | Hop].
    + rewrite (buildOperation_Mutation this op Hop) in *. cbn [fst snd] in *.
      rewrite decide_False by (intros Hne; by apply Hne).
      rewrite decide_False by (intros Hne; by apply Hne).
      repeat split; simpl; congruence.
    + destruct (buildOperation_not_Mutation this op Hop) as (Htext & Hmut1 & Hque1).
      rewrite decide_True by done. rewrite decide_True by done.
      repeat split; simpl; try congruence. lia.
Qed.

(** C6: [buildOperation] returns the empty string, and leaves the
    visitor as it is, exactly for the operations of type Mutation; over a
    document the non-empty texts are as many as the operations that are
    not mutations, and no entry is ever added to the mutation names.  For
    the document made of the query GetWeather and the mutation
    UpdateCity, under a naming convention that turns GetWeather with the
    suffix SuspenseQuery into GetWeatherSuspenseQuery, the texts are one
    repository with one accessor, useGetWeatherSuspenseQuery, and the
    empty string for the mutation. *)
Theorem only_non_mutations_are_generated :
  (∀ this op, (buildOperation this op).1 = "" ↔ operationType op = "Mutation")
  ∧ (∀ this op, operationType op = "Mutation" → buildOperation this op = ("", this))
  ∧ (∀ this ops,
       length (filter (λ text, text ≠ "") (visitOperations this ops).1)
       = length (filter (λ op, operationType op ≠ "Mutation") ops)
       ∧ __mutationNames (visitOperations this ops).2 = __mutationNames this)
  ∧ (convertName "GetWeather"
       {| suffix := "SuspenseQuery"; useTypesPrefix := None; useTypesSuffix := None |}
     = "GetWeatherSuspenseQuery" →
     ∃ text,
       (visitOperations newVisitor [GetWeather; UpdateCity]).1 = [text; ""]
       ∧ occurrences "export const " text = 1
       ∧ occurrences "export const useGetWeatherSuspenseQuery = (options: " text = 1
       ∧ occurrences "createRepository<" text = 1
       ∧ occurrences "UpdateCity" text = 0
       ∧ __mutationNames (visitOperations newVisitor [GetWeather; UpdateCity]).2 = []
       ∧ length (__queryNames (visitOperations newVisitor [GetWeather; UpdateCity]).2) = 1).
Proof.
  split.
  { intros this op. split.
    - intros Hempty. destruct (decide (operationType op = "Mutation")) as [| Hop]; [done |].
      by destruct (buildOperation_not_Mutation this op Hop) as (Htext & _).
    - intros Hop. by rewrite buildOperation_Mutation. }
  split; [apply buildOperation_Mutation |].
  split.
  { intros this ops. destruct (visitOperations_counts ops this) as (_ & ? & ? & _). done. }
  intros Hname.
  exists (body (node GetWeather) "GetWeatherSuspenseQuery"
            "Omit<QueryOptions<GetWeatherQueryVariables, GetWeatherQuery>, 'query'>"
            "query" "query" "GetWeatherDocument" "GetWeatherQuery"
            "GetWeatherQueryVariables").
  split.
  { rewrite !visitOperations_cons. cbn [fst snd Codegen.visitOperations].
    rewrite (buildOperation_Mutation _ UpdateCity) by reflexivity.
    unfold Codegen.buildOperation. cbn -[body].
    change ("Suspense" +:+ "Query") with "SuspenseQuery". by rewrite Hname. }
  split; [vm_compute; reflexivity |].
  split; [vm_compute; reflexivity |].
  split; [vm_compute; reflexivity |].
  split; [vm_compute; reflexivity |].
  destruct (visitOperations_counts [GetWeather; UpdateCity] newVisitor)
    as (_ & _ & Hmut & Hque).
  split; [exact Hmut | exact Hque].
Qed.

End GeneratorFacts.

Lemma only_non_mutations_are_generated_witness :
  appendSuffix "GetWeather"
    {| suffix := "SuspenseQuery"; useTypesPrefix := None; useTypesSuffix := None |}
  = "GetWeatherSuspenseQuery"
  ∧ ∃ text,
      (visitOperations (λ term, term) appendSuffix newVisitor [GetWeather; UpdateCity]).1
      = [text; ""]
      ∧ occurrences "export const " text = 1.
Proof.
  split; [reflexivity |].
  destruct (proj2 (proj2 (proj2
              (only_non_mutations_are_generated (λ term, term) appendSuffix)))
              eq_refl)
    as (text & Htexts & Hone & _).
  exists text. split; [exact Htexts | exact Hone].
Defined.

(** * Further properties of the repository *)

Section RepositoryInvariants.

Variable hash : Val -> string.
Variable options : option RepositoryOptions.

Local Abbreviation cacheKey := (cacheKey hash options).
Local Abbreviation read := (read hash options).
Local Abbreviation step := (step hash options).
Local Abbreviation exec := (exec hash options).
Local Abbreviation run := (run hash options).
Local Abbreviation along := (along hash options).
Local Abbreviation run_preserves := (run_preserves hash options).
Local Abbreviation step_cases := (step_cases hash options).
Local Abbreviation read_cache := (read_cache hash options).

(** X1: the slot of a key is written by one kind of event only, the
    fulfilment of a fetch pending for that key, which stores its value;
    so over a run in which no fetch for [k] is fulfilled, whatever is
    read, fetched, stored or rejected for other keys, the slot of [k] is
    what it was. *)
Theorem slot_written_only_by_own_fetch k :
  (∀ r ev x,
     step r ev = Some x →
     cache x.1 !! k ≠ cache r !! k →
     ∃ p v, ev = Resolve p v ∧ inflight r !! p = Some k ∧ cache x.1 !! k = Some v)
  ∧ (∀ evs r r',
       along (fulfils_no_fetch_for k) r evs →
       run r evs = Some r' →
       cache r' !! k = cache r !! k
       ∧ cache_get (cache r') k = cache_get (cache r) k).
Proof.
  split.
  - intros r ev x Hx Hdiff.
    apply step_cases in Hx
      as [(args & -> & Hr)
         | [(p & v & k0 & -> & Hp & Hc & _) | (p & e & k0 & -> & _ & Hc & _)]].
    + rewrite Hr, read_cache in Hdiff. done.
    + rewrite Hc in Hdiff |- *. destruct (decide (k0 = k)) as [-> |].
      * exists p, v. by rewrite lookup_insert_eq.
      * by rewrite lookup_insert_ne in Hdiff.
    + by rewrite Hc in Hdiff.
  - intros evs r r' Halong Hrun.
    assert (Hown : cache r' !! k = cache r !! k).
    { apply (run_preserves (λ r0, cache r0 !! k = cache r !! k)
               (fulfils_no_fetch_for k)) with (evs := evs) (r := r);
        [| done | done | done].
      clear. intros r0 ev x Hsame Hev Hx.
      apply step_cases in Hx
        as [(args & -> & ->)
           | [(p & v & k0 & -> & Hp & -> & _) | (p & e & k0 & -> & _ & -> & _)]].
      - by rewrite read_cache.
      - rewrite lookup_insert_ne; [done |]. intros ->. by apply Hev.
      - done. }
    split; [done |]. unfold cache_get. by rewrite Hown.
Qed.

(** Every pending promise is the promise of one fetcher call of the log,
    and is pending for the key of that call's arguments. *)
Lemma pending_indexed_by_calls evs r :
  run createRepository evs = Some r →
  ∀ p k, inflight r !! p = Some k →
         ∃ args, calls r !! p = Some args ∧ cacheKey args = Some k.
Proof.
  intros Hrun.
  apply (run_preserves
           (λ r, ∀ p k, inflight r !! p = Some k →
                        ∃ args, calls r !! p = Some args ∧ cacheKey args = Some k)
           any_event) with (evs := evs) (r := createRepository);
    [| | apply along_any_event | done].
  - clear. intros r ev x Hinv _ Hx.
    apply step_cases in Hx
      as [(args & -> & ->)
         | [(p & v & k0 & -> & Hp & _ & -> & ->)
           | (p & e & k0 & -> & Hp & _ & -> & ->)]].
    + unfold Repository.read. destruct (cacheKey args) as [k0|] eqn:Hk0; [| done].
      destruct (is_undefined (cache_get (cache r) k0)); [| done].
      intros q k. simpl. destruct (decide (length (calls r) = q)) as [<- |].
      * rewrite lookup_insert_eq. intros [= <-]. exists args.
        split; [| done]. by rewrite lookup_app_r, Nat.sub_diag.
      * rewrite lookup_insert_ne by done. intros Hq.
        destruct (Hinv q k Hq) as (a & Ha & Hk). exists a.
        split; [| done]. by apply lookup_app_l_Some.
    + intros q k [_ Hq]%lookup_delete_Some. by apply Hinv.
    + intros q k [_ Hq]%lookup_delete_Some. by apply Hinv.
  - intros p k. simpl. by rewrite lookup_empty.
Qed.

(** X2: in a repository made by [createRepository], every pending promise
    belongs to a fetcher call of the log, namely the call numbered like
    the promise, and is pending for the key derived from the arguments of
    that very call. *)
Theorem pending_promises_match_calls evs r p k :
  run createRepository evs = Some r →
  inflight r !! p = Some k →
  p < length (calls r)
  ∧ ∃ args, calls r !! p = Some args ∧ cacheKey args = Some k.
Proof.
  intros Hrun Hp.
  destruct (pending_indexed_by_calls evs r Hrun p k Hp) as (args & Hargs & Hk).
  split; [by eapply lookup_lt_Some | by exists args].
Qed.

Lemma exec_step_inv r ev evs r' os :
  exec r (ev :: evs) = Some (r', os) →
  ∃ x os', step r ev = Some x ∧ exec x.1 evs = Some (r', os') ∧ os = x.2 ++ os'.
Proof.
  simpl. destruct (step r ev) as [[r1 os1]|]; [| done]. simpl.
  destruct (exec r1 evs) as [[r2 os2]|] eqn:Hrest; [| done]. simpl.
  intros [= <- <-]. by exists (r1, os1), os2.
Qed.

(** X4: the fetcher is called by [read] only, with the arguments of that
    read and at most once per read.  Over any run, the log of fetcher
    calls grows at its end by a subsequence of the argument lists read;
    every read that suspends has made one of these calls, so there are
    at least as many new calls as suspended outcomes (a call that hands
    back no promise makes none); and no read returns [undefined]. *)
Theorem fetcher_called_only_by_reads evs : ∀ r r' os,
  exec r evs = Some (r', os) →
  ∃ new,
    calls r' = calls r ++ new
    ∧ new `sublist_of` reads_of evs
    ∧ (length (filter (λ o, suspended o = true) os) ≤ length new)%nat
    ∧ Forall (λ o, ∀ v, o = Returned v → is_undefined v = false) os.
Proof.
  induction evs as [| ev evs IH]; intros r r' os Hexec.
  - injection Hexec as <- <-. exists []. rewrite app_nil_r.
    split; [done |]. split; [done |]. split; [done | constructor].
  - apply exec_step_inv in Hexec as (x & os' & Hx & Hexec & ->).
    destruct (IH _ _ _ Hexec) as (new & Hcalls & Hsub & Hlen & Hdef).
    destruct ev as [args | p v | p e].
    + rewrite step_Read in Hx. injection Hx as <-.
      change (reads_of (Read args :: evs)) with (args :: reads_of evs).
      cbn [fst snd app] in *. unfold Repository.read in *.
      destruct (cacheKey args) as [k|].
      * destruct (is_undefined (cache_get (cache r) k)) eqn:Hmiss;
          cbn [fst snd calls] in *.
        -- exists (args :: new). rewrite Hcalls, <- app_assoc.
           split; [done |]. split; [by apply sublist_skip |].
           rewrite filter_cons_True by done. cbn [length].
           split; [lia |]. constructor; [done | done].
        -- exists new. split; [done |]. split; [by apply sublist_cons |].
           rewrite filter_cons_False by done.
           split; [done |]. constructor; [| done].
           by intros v [= <-].
      * cbn [fst snd calls] in *.
        exists new. split; [done |]. split; [by apply sublist_cons |].
        rewrite filter_cons_False by done.
        split; [done |]. constructor; [done | done].
    + apply step_Resolve in Hx as (k0 & Hp & ->). cbn [fst snd app calls] in *.
      by exists new.
    + apply step_Reject in Hx as (k0 & Hp & ->). cbn [fst snd app calls] in *.
      by exists new.
Qed.

(** A value held by the cache after a run was there before it or is the
    value some fetch of the run was fulfilled with. *)
Lemma stored_value_provenance evs : ∀ r r' k v,
  run r evs = Some r' →
  cache r' !! k = Some v →
  cache r !! k = Some v ∨ v ∈ resolved_values evs.
Proof.
  induction evs as [| ev evs IH]; intros r r' k v Hrun Hv.
  - rewrite run_nil in Hrun. injection Hrun as <-. by left.
  - rewrite run_cons in Hrun.
    destruct (step r ev) as [x|] eqn:Hx; [| done]. simpl in Hrun.
    destruct (IH _ _ _ _ Hrun Hv) as [Hbefore | Hlater].
    + apply step_cases in Hx
        as [(args & -> & Hr)
           | [(p & w & k0 & -> & Hp & Hc & _) | (p & e & k0 & -> & _ & Hc & _)]].
      * left. by rewrite Hr, read_cache in Hbefore.
      * rewrite Hc in Hbefore. destruct (decide (k0 = k)) as [-> |].
        -- rewrite lookup_insert_eq in Hbefore. injection Hbefore as ->.
           right. unfold resolved_values. simpl. apply list_elem_of_here.
        -- left. by rewrite lookup_insert_ne in Hbefore.
      * left. by rewrite Hc in Hbefore.
    + right. unfold resolved_values in *. destruct ev; simpl; [done | | done].
      by apply list_elem_of_further.
Qed.

(** X5: a repository made by [createRepository] never returns a value of
    its own making.  What [read] returns is a value that a fetch was
    fulfilled with earlier in the run, unless the key is the name of a
    member of [Object.prototype], which the empty cache object already
    answers. *)
Theorem returned_value_was_fetched evs r args v :
  run createRepository evs = Some r →
  (read r args).2 = Returned v →
  v ∈ resolved_values evs
  ∨ ∃ k, cacheKey args = Some k ∧ inherited k = true ∧ cache r !! k = None.
Proof.
  intros Hrun. unfold Repository.read.
  destruct (cacheKey args) as [k|]; [| done].
  destruct (is_undefined (cache_get (cache r) k)) eqn:Hdef; [done |].
  simpl. intros [= <-]. unfold cache_get in *.
  destruct (cache r !! k) as [w|] eqn:Hw.
  - left. destruct (stored_value_provenance evs _ _ k w Hrun Hw) as [Hinit | Hin];
      [| done]. simpl in Hinit. by rewrite lookup_empty in Hinit.
  - right. exists k. destruct (inherited k); [done | done].
Qed.

(** In a repository made by [createRepository] no fetcher call of the log
    was made for a key that [Object.prototype] defines. *)
Lemma calls_not_inherited evs r :
  run createRepository evs = Some r →
  (∀ k, is_Some (cache r !! k) → inherited k = false)
  ∧ (∀ p k, inflight r !! p = Some k → inherited k = false)
  ∧ Forall (λ a, ∀ k, cacheKey a = Some k → inherited k = false) (calls r).
Proof.
  intros Hrun.
  apply (run_preserves
           (λ r, (∀ k, is_Some (cache r !! k) → inherited k = false)
                 ∧ (∀ p k, inflight r !! p = Some k → inherited k = false)
                 ∧ Forall (λ a, ∀ k, cacheKey a = Some k → inherited k = false)
                     (calls r))
           any_event) with (evs := evs) (r := createRepository);
    [| | apply along_any_event | done].
  - clear. intros r ev x (Hown & Hfl & Hcalls) _ Hx.
    apply step_cases in Hx
      as [(args & -> & ->)
         | [(p & w & k0 & -> & Hp & Hc & Hi & Hl)
           | (p & e & k0 & -> & Hp & Hc & Hi & Hl)]].
    + split; [by rewrite read_cache |].
      unfold Repository.read. destruct (cacheKey args) as [k0|] eqn:Hk0; [| done].
      destruct (is_undefined (cache_get (cache r) k0)) eqn:Hmiss; [| done].
      apply is_undefined_true in Hmiss.
      assert (Hk : inherited k0 = false).
      { destruct (cache r !! k0) as [w|] eqn:Hw.
        - apply Hown. by rewrite Hw.
        - by eapply undefined_slot_not_inherited. }
      simpl. split.
      * intros q k. destruct (decide (length (calls r) = q)) as [<- |].
        -- rewrite lookup_insert_eq. by intros [= <-].
        -- rewrite lookup_insert_ne by done. apply Hfl.
      * apply Forall_app. split; [done |]. constructor; [| done].
        intros k. rewrite Hk0. by intros [= <-].
    + rewrite Hc, Hi, Hl. split; [| split; [| done]].
      * intros k. rewrite lookup_insert_is_Some.
        intros [<- | [_ Hk]]; [by eapply Hfl | by apply Hown].
      * intros q k [_ Hq]%lookup_delete_Some. by eapply Hfl.
    + rewrite Hc, Hi, Hl. split; [done |]. split; [| done].
      intros q k [_ Hq]%lookup_delete_Some. by eapply Hfl.
  - split; [| split].
    + intros k [w Hw]. simpl in Hw. by rewrite lookup_empty in Hw.
    + intros p k. simpl. by rewrite lookup_empty.
    + constructor.
Qed.

(** X6: the cache is an object literal, so a key that names a member of
    [Object.prototype] never reads [undefined].  In a repository made by
    [createRepository], at any time, a read that derives such a key
    returns the inherited member, leaves the repository as it is and does
    not call the fetcher; no fetcher call is ever made for such a key. *)
Theorem inherited_key_is_never_fetched evs r args k :
  run createRepository evs = Some r →
  cacheKey args = Some k →
  inherited k = true →
  read r args = (r, Returned (cache_get ∅ k))
  ∧ is_undefined (cache_get ∅ k) = false
  ∧ Forall (λ a, cacheKey a ≠ Some k) (calls r).
Proof.
  intros Hrun Hk Hin.
  destruct (calls_not_inherited evs r Hrun) as (Hown & _ & Hcalls).
  assert (Hnone : cache r !! k = None).
  { destruct (cache r !! k) as [w|] eqn:Hw; [| done].
    rewrite Hown in Hin; [done | by rewrite Hw]. }
  assert (Hsame : cache_get (cache r) k = cache_get ∅ k).
  { unfold cache_get. by rewrite Hnone, lookup_empty. }
  assert (Hdef : is_undefined (cache_get ∅ k) = false).
  { unfold cache_get. rewrite lookup_empty, Hin.
    by destruct (String.eqb k "__proto__"). }
  split; [| split; [done |]].
  - rewrite <- Hsame. apply read_hit; [done | by rewrite Hsame].
  - eapply Forall_impl; [exact Hcalls |].
    intros a Ha Hak. specialize (Ha k Hak). congruence.
Qed.

(** X13: the cache of a repository made by [createRepository] holds no
    key that was not asked for: every own property, and every pending
    promise, is keyed by the key derived from the arguments of some
    fetcher call of the log. *)
Theorem stored_keys_were_fetched evs r :
  run createRepository evs = Some r →
  (∀ k, is_Some (cache r !! k) → ∃ args, args ∈ calls r ∧ cacheKey args = Some k)
  ∧ (∀ p k, inflight r !! p = Some k → ∃ args, args ∈ calls r ∧ cacheKey args = Some k).
Proof.
  intros Hrun.
  apply (run_preserves
           (λ r, (∀ k, is_Some (cache r !! k) →
                       ∃ args, args ∈ calls r ∧ cacheKey args = Some k)
                 ∧ (∀ p k, inflight r !! p = Some k →
                           ∃ args, args ∈ calls r ∧ cacheKey args = Some k))
           any_event) with (evs := evs) (r := createRepository);
    [| | apply along_any_event | done].
  - clear. intros r ev x [Hown Hfl] _ Hx.
    apply step_cases in Hx
      as [(args & -> & ->)
         | [(p & w & k0 & -> & Hp & Hc & Hi & Hl)
           | (p & e & k0 & -> & Hp & Hc & Hi & Hl)]].
    + unfold Repository.read. destruct (cacheKey args) as [k0|] eqn:Hk0; [| done].
      destruct (is_undefined (cache_get (cache r) k0)); [| done].
      simpl. split.
      * intros k Hk. destruct (Hown k Hk) as (a & Ha & Hka).
        exists a. split; [| done]. apply elem_of_app. by left.
      * intros q k. destruct (decide (length (calls r) = q)) as [<- |].
        -- rewrite lookup_insert_eq. intros [= <-]. exists args.
           split; [| done]. apply elem_of_app. right. apply list_elem_of_here.
        -- rewrite lookup_insert_ne by done. intros Hq.
           destruct (Hfl q k Hq) as (a & Ha & Hka).
           exists a. split; [| done]. apply elem_of_app. by left.
    + rewrite Hc, Hi, Hl. split.
      * intros k. rewrite lookup_insert_is_Some.
        intros [<- | [_ Hk]]; [by eapply Hfl | by apply Hown].
      * intros q k [_ Hq]%lookup_delete_Some. by eapply Hfl.
    + rewrite Hc, Hi, Hl. split; [done |].
      intros q k [_ Hq]%lookup_delete_Some. by eapply Hfl.
  - split.
    + intros k [w Hw]. simpl in Hw. by rewrite lookup_empty in Hw.
    + intros p k. simpl. by rewrite lookup_empty.
Qed.

End RepositoryInvariants.

(** X7: without an override the hash of the argument array is the key.
    After a read that missed and the fulfilment of its fetch with a value
    other than [undefined], a read with other arguments returns that
    value if the two argument arrays have the same hash, and otherwise
    finds its own slot exactly as it was before. *)
Theorem default_strategy_shares_on_equal_hash
    (hash : Val → string) r args1 args2 v :
  cache_get (cache r) (hash (VArr args1)) = VUndefined →
  is_undefined v = false →
  ∃ r1 r2,
    read hash None r args1 = (r1, Suspended (length (calls r)))
    ∧ resolve r1 (length (calls r)) v = Some r2
    ∧ (hash (VArr args2) = hash (VArr args1) →
       read hash None r2 args2 = (r2, Returned v))
    ∧ (hash (VArr args2) ≠ hash (VArr args1) →
       cache_get (cache r2) (hash (VArr args2))
       = cache_get (cache r) (hash (VArr args2))).
Proof.
  intros Hundef Hv. do 2 eexists.
  split; [by apply (read_miss hash None r args1 (hash (VArr args1))) |].
  split; [simpl; unfold resolve; simpl; by rewrite lookup_insert_eq |].
  split.
  - intros Heq.
    rewrite (read_hit hash None _ args2 (hash (VArr args1)));
      simpl; rewrite ?cache_get_insert_eq; [done | by rewrite <- Heq | done].
  - intros Hne. simpl. by rewrite cache_get_insert_ne.
Qed.

(** X8: the override of the generated repositories never raises, since a
    falsy [variables] is replaced by an empty object, for which the key
    is the empty string; the key ignores the first parameter and the
    names of the properties; and since the values are joined by a dash,
    one value with a dash in it and two values give the same key. *)
Theorem generated_override_total_and_lossy :
  (∀ actuals, is_Some (toCacheKey_generated actuals))
  ∧ (∀ c v, truthy v = false → toCacheKey_generated [c; v] = Some "")
  ∧ (∀ c c' v, toCacheKey_generated [c; v] = toCacheKey_generated [c'; v])
  ∧ (∀ c props props',
       map snd props = map snd props' →
       toCacheKey_generated [c; VObj props] = toCacheKey_generated [c; VObj props'])
  ∧ (∀ c a b s t,
       toCacheKey_generated [c; VObj [(a, VStr (s +:+ "-" +:+ t))]]
       = toCacheKey_generated [c; VObj [(a, VStr s); (b, VStr t)]]).
Proof.
  split.
  { intros actuals. unfold toCacheKey_generated, or_else.
    destruct (truthy (param 1 actuals)) eqn:Htruthy; [| by eexists].
    destruct (param 1 actuals); try discriminate; by eexists. }
  split.
  { intros c v Hv. unfold toCacheKey_generated, or_else, param. simpl.
    by rewrite Hv. }
  split; [done |].
  split.
  { intros c props props' Hsame. unfold toCacheKey_generated, or_else, param.
    simpl. by rewrite Hsame. }
  done.
Qed.

(** ** Examples for the repository *)

Lemma slot_written_only_by_own_fetch_witness :
  ∃ r',
    run sample_hash None pending_a_b [Resolve 0 (VStr "x"); Read [VStr "c"]] = Some r'
    ∧ cache r' !! "a" = Some (VStr "x")
    ∧ cache r' !! "b" = cache pending_a_b !! "b".
Proof.
  eexists. split; [vm_compute; reflexivity |]. split; [vm_compute; reflexivity |].
  apply (proj2 (slot_written_only_by_own_fetch sample_hash None "b")
           [Resolve 0 (VStr "x"); Read [VStr "c"]] pending_a_b).
  - simpl. split; [vm_compute; discriminate |].
    intros x _. split; [exact I | intros y _; exact I].
  - vm_compute; reflexivity.
Defined.

Lemma pending_promises_match_calls_witness :
  0 < length (calls pending_melbourne)
  ∧ ∃ args, calls pending_melbourne !! 0 = Some args
            ∧ cacheKey sample_hash generated_options args = Some "".
Proof.
  apply (pending_promises_match_calls sample_hash generated_options
           [Read [client; melbourne]] pending_melbourne 0 "");
    vm_compute; reflexivity.
Defined.

Lemma fetcher_called_only_by_reads_witness :
  ∃ r' new,
    exec sample_hash None createRepository
      [Read [VStr "a"]; Read [VStr "b"]; Resolve 0 (VStr "x"); Read [VStr "a"]]
    = Some (r', [Suspended 0; Suspended 1; Returned (VStr "x")])
    ∧ calls r' = new ∧ new `sublist_of` [[VStr "a"]; [VStr "b"]; [VStr "a"]]
    ∧ (2 ≤ length new)%nat.
Proof.
  eexists. assert (Hexec : exec sample_hash None createRepository
      [Read [VStr "a"]; Read [VStr "b"]; Resolve 0 (VStr "x"); Read [VStr "a"]]
    = Some ({| cache := {[ "a" := VStr "x" ]};
               inflight := {[ 1 := "b" ]};
               calls := [[VStr "a"]; [VStr "b"]] |},
            [Suspended 0; Suspended 1; Returned (VStr "x")]))
    by (vm_compute; reflexivity).
  destruct (fetcher_called_only_by_reads sample_hash None _ _ _ _ Hexec)
    as (new & Hcalls & Hsub & Hlen & _).
  exists new. split; [exact Hexec |]. split; [exact Hcalls |].
  split; [exact Hsub | exact Hlen].
Defined.

Lemma returned_value_was_fetched_witness :
  (read sample_hash generated_options resolved_melbourne [client; sydney]).2
  = Returned (VStr "sunny")
  ∧ (VStr "sunny" ∈ resolved_values [Read [client; melbourne]; Resolve 0 (VStr "sunny")]
     ∨ ∃ k, cacheKey sample_hash generated_options [client; sydney] = Some k
            ∧ inherited k = true ∧ cache resolved_melbourne !! k = None).
Proof.
  split; [reflexivity |].
  apply (returned_value_was_fetched sample_hash generated_options
           [Read [client; melbourne]; Resolve 0 (VStr "sunny")]
           resolved_melbourne [client; sydney] (VStr "sunny"));
    vm_compute; reflexivity.
Defined.

Lemma inherited_key_is_never_fetched_witness :
  read sample_hash constructor_options createRepository [client; melbourne]
  = (createRepository, Returned (VFun "constructor")).
Proof.
  apply (inherited_key_is_never_fetched sample_hash constructor_options
           [] createRepository [client; melbourne] "constructor");
    reflexivity.
Defined.

Lemma stored_keys_were_fetched_witness :
  is_Some (cache resolved_melbourne !! "")
  ∧ ∃ args, args ∈ calls resolved_melbourne
            ∧ cacheKey sample_hash generated_options args = Some "".
Proof.
  split; [by eexists |].
  apply (proj1 (stored_keys_were_fetched sample_hash generated_options
                  [Read [client; melbourne]; Resolve 0 (VStr "sunny")]
                  resolved_melbourne ltac:(vm_compute; reflexivity))).
  by eexists.
Defined.

Lemma default_strategy_shares_on_equal_hash_witness :
  sample_hash (VArr [VStr "a,b"]) = sample_hash (VArr [VStr "a"; VStr "b"])
  ∧ ∃ r1 r2,
      read sample_hash None createRepository [VStr "a"; VStr "b"] = (r1, Suspended 0)
      ∧ resolve r1 0 (VStr "x") = Some r2
      ∧ read sample_hash None r2 [VStr "a,b"] = (r2, Returned (VStr "x")).
Proof.
  split; [reflexivity |].
  destruct (default_strategy_shares_on_equal_hash sample_hash createRepository
              [VStr "a"; VStr "b"] [VStr "a,b"] (VStr "x"))
    as (r1 & r2 & Hread & Hres & Hshare & _); [reflexivity | reflexivity |].
  exists r1, r2. split; [exact Hread |]. split; [exact Hres |].
  apply Hshare. reflexivity.
Defined.

Lemma generated_override_total_and_lossy_witness :
  toCacheKey_generated [client; VNum 0] = Some ""
  ∧ toCacheKey_generated [client; VObj [("city", VStr "x")]]
    = toCacheKey_generated [client; VObj [("town", VStr "x")]].
Proof.
  split.
  - apply (proj1 (proj2 generated_override_total_and_lossy)). reflexivity.
  - apply (proj1 (proj2 (proj2 (proj2 generated_override_total_and_lossy)))).
    reflexivity.
Defined.

(** * Further properties of the generator *)

(** ** Suffixes of strings *)

Lemma append_cons (c : Ascii.ascii) (s t : string) :
  String c s +:+ t = String c (s +:+ t).
Proof. reflexivity. Qed.

Lemma length_append (s t : string) :
  String.length (s +:+ t) = String.length s + String.length t.
Proof.
  induction s as [| c s IH]; [done |].
  rewrite append_cons. simpl. by rewrite IH.
Qed.

Lemma append_assoc (s t u : string) : (s +:+ t) +:+ u = s +:+ (t +:+ u).
Proof.
  induction s as [| c s IH]; [done |].
  rewrite !append_cons. by rewrite IH.
Qed.

Lemma substring_whole (t : string) : String.substring 0 (String.length t) t = t.
Proof. induction t as [| c t IH]; simpl; [done | by rewrite IH]. Qed.

Lemma substring_append_l (s t : string) :
  String.substring 0 (String.length s) (s +:+ t) = s.
Proof.
  induction s as [| c s IH]; [by destruct t |].
  rewrite append_cons. simpl. by rewrite IH.
Qed.

Lemma substring_append_r (s t : string) :
  String.substring (String.length s) (String.length t) (s +:+ t) = t.
Proof.
  induction s as [| c s IH]; [apply substring_whole |].
  rewrite append_cons. simpl. exact IH.
Qed.

Lemma strip_suffix_append (suffix s : string) :
  strip_suffix suffix (s +:+ suffix) = s.
Proof.
  unfold strip_suffix, ends_with. rewrite length_append.
  replace (String.length s + String.length suffix - String.length suffix)
    with (String.length s) by lia.
  rewrite substring_append_r, String.eqb_refl, substring_append_l.
  by rewrite (proj2 (Nat.leb_le _ _)) by lia.
Qed.

Lemma strip_suffix_other (suffix s t : string) :
  String.length t = String.length suffix → t ≠ suffix →
  strip_suffix suffix (s +:+ t) = s +:+ t.
Proof.
  intros Hlen Hne. unfold strip_suffix, ends_with. rewrite length_append.
  replace (String.length s + String.length t - String.length suffix)
    with (String.length s) by lia.
  rewrite <- Hlen, substring_append_r.
  rewrite (proj2 (String.eqb_neq t suffix)) by done.
  by rewrite andb_false_r.
Qed.

(** X9: on a term whose first character is an ASCII one,
    [lowerCaseFirstLetter] lowers that character and then removes a
    trailing Query and, after it, a trailing Mutation.  So a name ending
    in SuspenseQuery, as [buildOperation] makes them, loses just Query;
    MutationQuery is removed whole, of QueryMutation only Mutation goes;
    and the bare words Query and Mutation are kept, in lower case, since
    the letter is lowered before the suffix is looked for. *)
Theorem lowerCaseFirstLetter_strips_trailing_kind :
  lowerCaseFirstLetter "" = ""
  ∧ (∀ c rest,
       Ascii.nat_of_ascii c < 128 →
       lowerCaseFirstLetter (String c (rest +:+ "Query"))
       = strip_suffix "Mutation" (String (lower_ascii c) rest))
  ∧ (∀ c rest,
       Ascii.nat_of_ascii c < 128 →
       lowerCaseFirstLetter (String c (rest +:+ "SuspenseQuery"))
       = String (lower_ascii c) (rest +:+ "Suspense"))
  ∧ (∀ c rest,
       Ascii.nat_of_ascii c < 128 →
       lowerCaseFirstLetter (String c (rest +:+ "MutationQuery"))
       = String (lower_ascii c) rest)
  ∧ (∀ c rest,
       Ascii.nat_of_ascii c < 128 →
       lowerCaseFirstLetter (String c (rest +:+ "QueryMutation"))
       = String (lower_ascii c) (rest +:+ "Query"))
  ∧ lowerCaseFirstLetter "Query" = "query"
  ∧ lowerCaseFirstLetter "Mutation" = "mutation".
Proof.
  assert (Hquery : ∀ c rest,
             lowerCaseFirstLetter (String c (rest +:+ "Query"))
             = strip_suffix "Mutation" (String (lower_ascii c) rest)).
  { intros c rest. unfold lowerCaseFirstLetter.
    change (String (lower_ascii c) (rest +:+ "Query"))
      with (String (lower_ascii c) rest +:+ "Query").
    by rewrite strip_suffix_append. }
  split; [done |]. split; [intros c rest _; apply Hquery |]. split.
  { intros c rest _.
    change "SuspenseQuery" with ("Suspense" +:+ "Query").
    rewrite <- append_assoc, Hquery.
    change (String (lower_ascii c) (rest +:+ "Suspense"))
      with (String (lower_ascii c) rest +:+ "Suspense").
    by apply strip_suffix_other. }
  split.
  { intros c rest _.
    change "MutationQuery" with ("Mutation" +:+ "Query").
    rewrite <- append_assoc, Hquery.
    change (String (lower_ascii c) (rest +:+ "Mutation"))
      with (String (lower_ascii c) rest +:+ "Mutation").
    apply strip_suffix_append. }
  split; [| done].
  intros c rest _. unfold lowerCaseFirstLetter.
  change (String (lower_ascii c) (rest +:+ "QueryMutation"))
    with (String (lower_ascii c) rest +:+ ("QueryMut" +:+ "ation")).
  rewrite <- append_assoc, strip_suffix_other by done.
  rewrite append_assoc.
  change ("QueryMut" +:+ "ation") with ("Query" +:+ "Mutation").
  rewrite <- append_assoc. apply strip_suffix_append.
Qed.

Lemma lowerCaseFirstLetter_strips_trailing_kind_witness :
  Ascii.nat_of_ascii (Ascii.ascii_of_nat 71) < 128
  ∧ lowerCaseFirstLetter "GetWeatherSuspenseQuery" = "getWeatherSuspense".
Proof.
  assert (Hascii : Ascii.nat_of_ascii (Ascii.ascii_of_nat 71) < 128)
    by (vm_compute; lia).
  split; [exact Hascii |].
  exact (proj1 (proj2 (proj2 lowerCaseFirstLetter_strips_trailing_kind))
           (Ascii.ascii_of_nat 71) "etWeather" Hascii).
Defined.

Section GeneratorStructure.

Variable pascalCase : string -> string.
Variable convertName : string -> ConvertOptions -> string.

Local Abbreviation buildOperation := (buildOperation pascalCase convertName).
Local Abbreviation visitOperations := (visitOperations pascalCase convertName).
Local Abbreviation queryBinding := (queryBinding pascalCase convertName).

Lemma buildOperation_text_any_visitor this this' op :
  (buildOperation this op).1 = (buildOperation this' op).1.
Proof.
  unfold Codegen.buildOperation.
  by destruct (String.eqb (operationType op) "Mutation" && _).
Qed.

Lemma visitOperations_step this op ops :
  visitOperations this (op :: ops)
  = ((buildOperation this op).1 :: (visitOperations (buildOperation this op).2 ops).1,
     (visitOperations (buildOperation this op).2 ops).2).
Proof.
  simpl. destruct (buildOperation this op) as [text this1]. simpl.
  by destruct (visitOperations this1 ops).
Qed.

(** X10: the text generated for an operation does not depend on the
    visitor nor on the operations generated before it: the texts of a
    document are those of its operations taken one by one, and the texts
    of two documents put together are the texts of the first followed by
    the texts of the second. *)
Theorem operation_text_independent_of_visitor :
  (∀ this this' op, (buildOperation this op).1 = (buildOperation this' op).1)
  ∧ (∀ ops this,
       (visitOperations this ops).1
       = map (λ op, (buildOperation newVisitor op).1) ops)
  ∧ (∀ ops1 ops2 this,
       (visitOperations this (ops1 ++ ops2)).1
       = (visitOperations this ops1).1 ++ (visitOperations newVisitor ops2).1).
Proof.
  assert (Hmap : ∀ ops this,
             (visitOperations this ops).1
             = map (λ op, (buildOperation newVisitor op).1) ops).
  { induction ops as [| op ops IH]; intros this; [done |].
    rewrite visitOperations_step. cbn [fst map]. rewrite IH.
    f_equal. apply buildOperation_text_any_visitor. }
  split; [apply buildOperation_text_any_visitor |]. split; [exact Hmap |].
  intros ops1 ops2 this. by rewrite !Hmap, map_app.
Qed.

(** X11: every operation whose type is not Mutation, a Subscription as
    much as a Query, is generated as a query: its text is the repository
    and accessor built on [client.query], named with the suffix
    SuspenseQuery, and the entry recorded for it has the action query.
    After a document the entries recorded are those of its operations
    that are not mutations, in document order, after the ones that were
    there. *)
Theorem non_mutations_are_generated_as_queries :
  (∀ this op,
     operationType op ≠ "Mutation" →
     buildOperation this op
     = (body (node op)
          (convertName (default "" (name (node op)))
             {| suffix := "SuspenseQuery";
                useTypesPrefix := None; useTypesSuffix := None |})
          (type (queryBinding op)) "query" "query"
          (documentVariableName op) (operationResultType op)
          (operationVariablesType op),
        {| __mutationNames := __mutationNames this;
           __queryNames := __queryNames this ++ [queryBinding op] |}))
  ∧ (∀ ops this,
       __queryNames (visitOperations this ops).2
       = __queryNames this
         ++ map queryBinding (filter (λ op, operationType op ≠ "Mutation") ops)).
Proof.
  assert (Hone : ∀ this op,
     operationType op ≠ "Mutation" →
     buildOperation this op
     = (body (node op)
          (convertName (default "" (name (node op)))
             {| suffix := "SuspenseQuery";
                useTypesPrefix := None; useTypesSuffix := None |})
          (type (queryBinding op)) "query" "query"
          (documentVariableName op) (operationResultType op)
          (operationVariablesType op),
        {| __mutationNames := __mutationNames this;
           __queryNames := __queryNames this ++ [queryBinding op] |})).
  { intros this op Hop. unfold Codegen.buildOperation.
    destruct (String.eqb_spec (operationType op) "Mutation") as [| _]; [done |].
    cbn [andb]. unfold Scenario.queryBinding. by destruct (name (node op)). }
  split; [exact Hone |].
  induction ops as [| op ops IH]; intros this.
  - simpl. by rewrite app_nil_r.
  - rewrite visitOperations_step. cbn [snd]. rewrite IH, filter_cons.
    destruct (decide (operationType op ≠ "Mutation")) as [Hop | Hop].
    + rewrite (Hone this op Hop). cbn [snd __queryNames map].
      by rewrite <- app_assoc.
    + rewrite (buildOperation_Mutation pascalCase convertName this op);
        [done |].
      by destruct (decide (operationType op = "Mutation")).
Qed.

End GeneratorStructure.

Lemma non_mutations_are_generated_as_queries_witness :
  __queryNames
    (buildOperation (λ term, term) appendSuffix newVisitor GetWeather).2
  = [ {| binding_name := "GetWeatherQuery"; action := "query";
         type := "Omit<QueryOptions<GetWeatherQueryVariables, GetWeatherQuery>, 'query'>" |} ].
Proof.
  rewrite (proj1 (non_mutations_are_generated_as_queries (λ term, term) appendSuffix)
             newVisitor GetWeather); [reflexivity | discriminate].
Defined.

Lemma variables_fold (spaces : nat) (vs : list string) : ∀ acc : string,
  fold_left
    (λ collection item,
       collection +:+ nl +:+ "* " +:+ padStart "" spaces tab +:+ item
       +:+ ": // value for " +:+ item) vs acc
  = acc +:+ fold_left
      (λ collection item,
         collection +:+ nl +:+ "* " +:+ padStart "" spaces tab +:+ item
         +:+ ": // value for " +:+ item) vs "".
Proof.
  induction vs as [| v vs IH]; intros acc; simpl.
  - induction acc as [| c acc IHacc]; [done |].
    rewrite append_cons. by rewrite <- IHacc.
  - rewrite IH. symmetry. rewrite IH. by rewrite <- append_assoc.
Qed.

(** X12: [variablesStringGenerator] writes one line per variable, in the
    order of the definitions and each line from its variable alone: no
    text for no variable, and the text for two lists of variables put
    together is the text of the first followed by the text of the
    second. *)
Theorem variables_are_listed_line_by_line nm spaces :
  variablesStringGenerator {| name := nm; variableDefinitions := [] |} spaces = ""
  ∧ (∀ v,
       variablesStringGenerator {| name := nm; variableDefinitions := [v] |} spaces
       = nl +:+ "* " +:+ padStart "" spaces tab +:+ v +:+ ": // value for " +:+ v)
  ∧ (∀ vs1 vs2,
       variablesStringGenerator
         {| name := nm; variableDefinitions := vs1 ++ vs2 |} spaces
       = variablesStringGenerator
           {| name := nm; variableDefinitions := vs1 |} spaces
         +:+ variablesStringGenerator
               {| name := nm; variableDefinitions := vs2 |} spaces).
Proof.
  split; [done |]. split; [done |].
  intros vs1 vs2. unfold variablesStringGenerator.
  cbn [variableDefinitions]. rewrite fold_left_app. apply variables_fold.
Qed.

(** * Further properties of [validate] *)

Section ExtnameScan.

Local Abbreviation indexed a l := (zip (seq a (length l)) l).
Local Abbreviation plain_pairs l :=
  (Forall (λ p : nat * Ascii.ascii,
             p.2 ≠ CHAR_DOT ∧ p.2 ≠ CHAR_FORWARD_SLASH) l).

Lemma indexed_app a (l1 l2 : list Ascii.ascii) :
  indexed a (l1 ++ l2) = indexed a l1 ++ indexed (a + length l1) l2.
Proof.
  rewrite length_app, seq_app. apply zip_with_app. by rewrite length_seq.
Qed.

Lemma rev_indexed_snoc a (l : list Ascii.ascii) c :
  rev (indexed a (l ++ [c])) = (a + length l, c) :: rev (indexed a l).
Proof. rewrite indexed_app, rev_app_distr. reflexivity. Qed.

Lemma plain_pairs_rev_indexed a (l : list Ascii.ascii) :
  Forall (λ c, c ≠ CHAR_DOT ∧ c ≠ CHAR_FORWARD_SLASH) l →
  plain_pairs (rev (indexed a l)).
Proof.
  intros Hl. apply List.Forall_rev.
  revert a. induction Hl as [| c l Hc Hl IH]; intros a; [constructor |].
  simpl. constructor; [done | apply IH].
Qed.

Lemma plain_not_slash c :
  c ≠ CHAR_DOT ∧ c ≠ CHAR_FORWARD_SLASH →
  Ascii.eqb c CHAR_FORWARD_SLASH = false ∧ Ascii.eqb c CHAR_DOT = false.
Proof. intros [Hdot Hslash]. by rewrite !(proj2 (Ascii.eqb_neq _ _)). Qed.

(** Plain characters met before any dot only mark the end of the
    component. *)
Lemma scan_plain_fresh l rest sp ms pd :
  plain_pairs l →
  extname_scan (l ++ rest)
    {| startDot := None; startPart := sp; end_ := None;
       matchedSlash := ms; preDotState := pd |}
  = extname_scan rest
      match l with
      | [] => {| startDot := None; startPart := sp; end_ := None;
                 matchedSlash := ms; preDotState := pd |}
      | (i, _) :: _ => {| startDot := None; startPart := sp; end_ := Some (i + 1);
                         matchedSlash := false; preDotState := pd |}
      end.
Proof.
  intros Hl. destruct Hl as [| [i c] l Hc Hl]; [done |].
  apply plain_not_slash in Hc as [Hs Hd]. simpl in Hs, Hd.
  cbn [app extname_scan]. rewrite Hs, Hd. cbn.
  clear Hs Hd c. induction Hl as [| [j c] l Hc Hl IH]; [done |].
  apply plain_not_slash in Hc as [Hs Hd]. simpl in Hs, Hd.
  cbn [app extname_scan]. rewrite Hs, Hd. cbn. exact IH.
Qed.

(** Plain characters met after the dot record that the dot has a name
    before it. *)
Lemma scan_plain_dotted l rest d sp e ms pd :
  plain_pairs l →
  extname_scan (l ++ rest)
    {| startDot := Some d; startPart := sp; end_ := Some e;
       matchedSlash := ms; preDotState := pd |}
  = extname_scan rest
      {| startDot := Some d; startPart := sp; end_ := Some e;
         matchedSlash := ms;
         preDotState := match l with [] => pd | _ => -1 end |}.
Proof.
  intros Hl. revert pd. induction Hl as [| [j c] l Hc Hl IH]; intros pd; [done |].
  apply plain_not_slash in Hc as [Hs Hd]. simpl in Hs, Hd.
  cbn [app extname_scan]. rewrite Hs, Hd. cbn. rewrite IH. by destruct l.
Qed.

(** The scan of the characters before the last dot, met with the dot and
    the end of the component already marked: they are the directory part,
    which stops the scan at its last slash. *)
Lemma scan_directory (D : list Ascii.ascii) d e pd :
  (D = [] ∨ ∃ D', D = D' ++ [CHAR_FORWARD_SLASH]) →
  ∃ sp,
    extname_scan (rev (indexed 0 D))
      {| startDot := Some d; startPart := 0; end_ := Some e;
         matchedSlash := false; preDotState := pd |}
    = {| startDot := Some d; startPart := sp; end_ := Some e;
         matchedSlash := false; preDotState := pd |}.
Proof.
  intros [-> | [D' ->]]; [by exists 0 |].
  rewrite rev_indexed_snoc. by eexists.
Qed.

(** The dot that starts the extension. *)
Lemma scan_dot i rest sp en ms pd :
  extname_scan ((i, CHAR_DOT) :: rest)
    {| startDot := None; startPart := sp; end_ := en;
       matchedSlash := ms; preDotState := pd |}
  = extname_scan rest
      {| startDot := Some i; startPart := sp;
         end_ := Some (default (i + 1) en);
         matchedSlash := match en with None => false | Some _ => ms end;
         preDotState := pd |}.
Proof. by destruct en. Qed.

(** Without a dot no extension starts. *)
Lemma scan_no_dot l : ∀ st,
  Forall (λ p : nat * Ascii.ascii, p.2 ≠ CHAR_DOT) l →
  startDot st = None → startDot (extname_scan l st) = None.
Proof.
  induction l as [| [i c] l IH]; intros [sd sp en ms pd] Hl Hsd; [done |].
  simpl in Hsd. subst sd. inversion_clear Hl as [| ? ? Hc Hrest].
  simpl in Hc. apply Ascii.eqb_neq in Hc.
  cbn [extname_scan]. destruct (Ascii.eqb c CHAR_FORWARD_SLASH).
  - cbn. destruct ms; cbn; [by apply IH | done].
  - rewrite Hc. destruct en; cbn; by apply IH.
Qed.

(** The scan of [dir ++ stem ++ "." ++ ext]. *)
Lemma scan_file (D S E : list Ascii.ascii) :
  (D = [] ∨ ∃ D', D = D' ++ [CHAR_FORWARD_SLASH]) →
  S ≠ [] →
  Forall (λ c, c ≠ CHAR_DOT ∧ c ≠ CHAR_FORWARD_SLASH) S →
  Forall (λ c, c ≠ CHAR_DOT ∧ c ≠ CHAR_FORWARD_SLASH) E →
  ∃ sp,
    extname_scan (rev (indexed 0 (D ++ S ++ [CHAR_DOT] ++ E)))
      {| startDot := None; startPart := 0; end_ := None;
         matchedSlash := true; preDotState := 0 |}
    = {| startDot := Some (length D + length S); startPart := sp;
         end_ := Some (length D + length S + 1 + length E);
         matchedSlash := false; preDotState := -1 |}.
Proof.
  intros HD HS HpS HpE.
  replace (D ++ S ++ [CHAR_DOT] ++ E) with (((D ++ S) ++ [CHAR_DOT]) ++ E)
    by (by rewrite <- !app_assoc).
  rewrite (indexed_app 0 ((D ++ S) ++ [CHAR_DOT]) E), rev_app_distr.
  rewrite rev_indexed_snoc, (indexed_app 0 D S), rev_app_distr.
  rewrite scan_plain_fresh by (by apply plain_pairs_rev_indexed).
  destruct (scan_directory D (length D + length S)
              (length D + length S + 1 + length E) (-1) HD) as [sp Hsp].
  exists sp. rewrite <- Hsp.
  assert (HS' : ∃ S' c, S = S' ++ [c]).
  { destruct S as [| c S' _] using rev_ind; [done | by exists S', c]. }
  destruct HS' as (S' & c & ->).
  destruct E as [| c' E' _] using rev_ind.
  - cbn [length zip_with seq rev app]. rewrite scan_dot.
    rewrite scan_plain_dotted by (by apply plain_pairs_rev_indexed).
    rewrite rev_indexed_snoc. cbn [default].
    do 2 f_equal; f_equal; rewrite !length_app; simpl; lia.
  - rewrite (rev_indexed_snoc _ E'). rewrite scan_dot.
    rewrite scan_plain_dotted by (by apply plain_pairs_rev_indexed).
    rewrite (rev_indexed_snoc _ S'). cbn [default].
    do 2 f_equal; f_equal; rewrite !length_app; simpl; lia.
Qed.

(** The scan of [dir ++ "." ++ ext], a file whose name starts with its
    only dot. *)
Lemma scan_dotfile (D E : list Ascii.ascii) :
  (D = [] ∨ ∃ D', D = D' ++ [CHAR_FORWARD_SLASH]) →
  Forall (λ c, c ≠ CHAR_DOT ∧ c ≠ CHAR_FORWARD_SLASH) E →
  ∃ sp d e,
    extname_scan (rev (indexed 0 (D ++ [CHAR_DOT] ++ E)))
      {| startDot := None; startPart := 0; end_ := None;
         matchedSlash := true; preDotState := 0 |}
    = {| startDot := Some d; startPart := sp; end_ := Some e;
         matchedSlash := false; preDotState := 0 |}.
Proof.
  intros HD HpE.
  replace (D ++ [CHAR_DOT] ++ E) with ((D ++ [CHAR_DOT]) ++ E)
    by (by rewrite <- !app_assoc).
  rewrite (indexed_app 0 (D ++ [CHAR_DOT]) E), rev_app_distr.
  rewrite rev_indexed_snoc.
  rewrite scan_plain_fresh by (by apply plain_pairs_rev_indexed).
  destruct E as [| c' E' _] using rev_ind.
  - cbn [length zip_with seq rev app]. rewrite scan_dot. cbn [default].
    destruct (scan_directory D (0 + length D) (0 + length D + 1) 0 HD)
      as [sp Hsp].
    exists sp. do 2 eexists. exact Hsp.
  - rewrite (rev_indexed_snoc _ E'). rewrite scan_dot. cbn [default].
    match goal with
    | |- context [extname_scan _ {| startDot := Some ?d; end_ := Some ?e |}] =>
        destruct (scan_directory D d e 0 HD) as [sp Hsp]
    end.
    exists sp. do 2 eexists. exact Hsp.
Qed.

End ExtnameScan.

Lemma chars_append (s t : string) :
  String.list_ascii_of_string (s +:+ t)
  = String.list_ascii_of_string s ++ String.list_ascii_of_string t.
Proof.
  induction s as [| c s IH]; [done |].
  rewrite append_cons. simpl. by rewrite IH.
Qed.

Lemma chars_length (s : string) :
  length (String.list_ascii_of_string s) = String.length s.
Proof. induction s as [| c s IH]; simpl; [done | by rewrite IH]. Qed.

Lemma directory_prefix_chars dir :
  directory_prefix dir →
  String.list_ascii_of_string dir = []
  ∨ ∃ D', String.list_ascii_of_string dir = D' ++ [CHAR_FORWARD_SLASH].
Proof.
  intros [-> | [d ->]]; [by left | right].
  exists (String.list_ascii_of_string d). by rewrite chars_append.
Qed.

Lemma plain_extension_ts : plain_name "ts" ∧ plain_name "tsx".
Proof.
  split; unfold plain_name; simpl;
    repeat (constructor; [split; intros Heq; vm_compute in Heq; discriminate |]);
    constructor.
Qed.

(** A path without a dot has no extension. *)
Lemma extname_without_dot path :
  Forall (λ c, c ≠ CHAR_DOT) (String.list_ascii_of_string path) →
  extname path = "".
Proof.
  intros Hpath. unfold extname. cbv zeta.
  rewrite scan_no_dot; [done | | done].
  apply List.Forall_rev.
  generalize 0. induction Hpath as [| c l Hc Hl IH]; intros a; [constructor |].
  simpl. constructor; [done | apply IH].
Qed.

(** A file name that starts with its only dot has no extension. *)
Lemma extname_of_dotfile dir e :
  directory_prefix dir → plain_name e → extname (dir +:+ "." +:+ e) = "".
Proof.
  intros Hdir He. unfold extname. cbv zeta.
  rewrite chars_append.
  change (String.list_ascii_of_string ("." +:+ e))
    with ([CHAR_DOT] ++ String.list_ascii_of_string e).
  destruct (scan_dotfile _ _ (directory_prefix_chars dir Hdir) He)
    as (sp & d & n & Hscan).
  by rewrite Hscan.
Qed.

(** The extension of a named file is what follows its last dot. *)
Lemma extname_of_file dir stem e :
  directory_prefix dir → stem ≠ "" → plain_name stem → plain_name e →
  extname (dir +:+ stem +:+ "." +:+ e) = "." +:+ e.
Proof.
  intros Hdir Hstem Hplain He. unfold extname. cbv zeta.
  rewrite !chars_append.
  change (String.list_ascii_of_string ".") with [CHAR_DOT].
  destruct (scan_file (String.list_ascii_of_string dir)
              (String.list_ascii_of_string stem)
              (String.list_ascii_of_string e)
              (directory_prefix_chars dir Hdir)) as [sp Hscan];
    [by destruct stem | done | done |].
  rewrite Hscan. cbn [startDot end_ preDotState startPart].
  change ((-1 =? 0)%Z) with false. change ((-1 =? 1)%Z) with false.
  cbn [orb andb]. rewrite !chars_length.
  rewrite <- (append_assoc dir stem), <- length_append.
  replace (String.length (dir +:+ stem) + 1 + String.length e
           - String.length (dir +:+ stem))
    with (String.length ("." +:+ e)) by (rewrite length_append; simpl; lia).
  apply substring_append_r.
Qed.

(** X14: with the checks enabled [validate] rejects every output path
    that has no dot at all, and every path whose file name starts with
    its only dot: a file called .ts or .tsx is not a TypeScript file for
    it. *)
Theorem validate_rejects_without_extension config :
  truthy (disableChecks config) = false →
  (∀ path,
     Forall (λ c, c ≠ CHAR_DOT) (String.list_ascii_of_string path) →
     validate config path
     = Rejected "The output file must be a typescript file ending with either .ts or .tsx")
  ∧ (∀ dir e,
       directory_prefix dir → plain_name e →
       validate config (dir +:+ "." +:+ e)
       = Rejected "The output file must be a typescript file ending with either .ts or .tsx").
Proof.
  intros Hchecks. split.
  - intros path Hpath. unfold validate.
    by rewrite Hchecks, extname_without_dot.
  - intros dir e Hdir He. unfold validate.
    by rewrite Hchecks, extname_of_dotfile.
Qed.

(** X15: [validate] accepts every output path made of a directory part,
    empty or ending with a slash, a non-empty file name without dot or
    slash, and the extension .ts or .tsx; with the checks enabled it
    rejects the same path with any other extension. *)
Theorem validate_accepts_typescript_files config dir stem :
  directory_prefix dir → stem ≠ "" → plain_name stem →
  validate config (dir +:+ stem +:+ ".ts") = Fulfilled
  ∧ validate config (dir +:+ stem +:+ ".tsx") = Fulfilled
  ∧ (∀ e,
       plain_name e → e ≠ "ts" → e ≠ "tsx" →
       truthy (disableChecks config) = false →
       validate config (dir +:+ stem +:+ "." +:+ e)
       = Rejected "The output file must be a typescript file ending with either .ts or .tsx").
Proof.
  intros Hdir Hstem Hplain. destruct plain_extension_ts as [Hts Htsx].
  pose proof (extname_of_file dir stem "ts" Hdir Hstem Hplain Hts) as Hext.
  pose proof (extname_of_file dir stem "tsx" Hdir Hstem Hplain Htsx) as Hextx.
  change ("." +:+ "ts") with ".ts" in Hext.
  change ("." +:+ "tsx") with ".tsx" in Hextx.
  split; [| split].
  - unfold validate. rewrite Hext. by destruct (truthy (disableChecks config)).
  - unfold validate. rewrite Hextx. by destruct (truthy (disableChecks config)).
  - intros e He Hnts Hntsx Hchecks. unfold validate.
    rewrite Hchecks, (extname_of_file dir stem e) by done.
    unfold validFileExtensions. cbn [existsb].
    rewrite (proj2 (String.eqb_neq ("." +:+ e) ".ts"))
      by (intros Heq; injection Heq as Heq; exact (Hnts Heq)).
    by rewrite (proj2 (String.eqb_neq ("." +:+ e) ".tsx"))
      by (intros Heq; injection Heq as Heq; exact (Hntsx Heq)).
Qed.

Lemma validate_rejects_without_extension_witness :
  validate {| disableChecks := VBool false |} "generated/schema"
  = Rejected "The output file must be a typescript file ending with either .ts or .tsx"
  ∧ validate {| disableChecks := VBool false |} ("src/" +:+ "." +:+ "ts")
    = Rejected "The output file must be a typescript file ending with either .ts or .tsx".
Proof.
  destruct (validate_rejects_without_extension {| disableChecks := VBool false |}
              eq_refl) as [Hnodot Hdotfile].
  split.
  - apply Hnodot. simpl.
    repeat (constructor; [intros Heq; vm_compute in Heq; discriminate |]).
    constructor.
  - apply Hdotfile; [right; by exists "src" | apply plain_extension_ts].
Defined.

Lemma validate_accepts_typescript_files_witness :
  validate {| disableChecks := VBool false |} ("src/generated/" +:+ "schema" +:+ ".tsx")
  = Fulfilled.
Proof.
  apply (validate_accepts_typescript_files {| disableChecks := VBool false |}
           "src/generated/" "schema").
  - right. by exists "src/generated".
  - discriminate.
  - unfold plain_name. simpl.
    repeat (constructor; [split; intros Heq; vm_compute in Heq; discriminate |]).
    constructor.
Defined.
